(** * futoji: a delimiter-driven inline text formatter

    Shallow embedding of [src/formatter.ts] (class [Formatter]) and the
    properties of its two scanners, [format] and [formatRegex].

    Conventions of the embedding.
    - A JavaScript string is a [string], one [ascii] per code unit;
      cursor positions are [nat] (the source only ever holds
      non-negative integers in [pos]).
    - The host callbacks [validate] and [transformer] are pure total
      functions.
    - A call either returns, throws, or is not answered by the model
      (fuel exhausted, or a regular expression outside the modelled
      fragment): type [outcome].
    - The [RegExp] engine of the platform is a parameter of the scanners;
      a reference engine for a small fragment of the pattern syntax is
      given afterwards for evaluating concrete inputs. *)

From Stdlib Require Import String Ascii List Arith Bool Lia.
Import ListNotations.
Open Scope string_scope.

(* ================================================================= *)
(** ** JavaScript string primitives used by the source *)

Module JsString.

Fixpoint drop (n : nat) (s : string) : string :=
  match n, s with
  | 0, _ => s
  | S _, EmptyString => EmptyString
  | S n', String _ s' => drop n' s'
  end.

Fixpoint take (n : nat) (s : string) : string :=
  match n, s with
  | 0, _ => EmptyString
  | S _, EmptyString => EmptyString
  | S n', String c s' => String c (take n' s')
  end.

(** [s.slice(a, b)] for non-negative [a], [b]: both ends are clamped to
    the length and an inverted range is empty. *)
Definition slice (s : string) (a b : nat) : string := take (b - a) (drop a s).

(** [s.startsWith(search, position)]: the position is clamped to the
    length of [s]. *)
Definition startsWith (s search : string) (position : nat) : bool :=
  prefix search (drop position s).

(** Offset of the first occurrence of [search] in [s]. *)
Fixpoint find (search s : string) : option nat :=
  if prefix search s then Some 0
  else match s with
       | EmptyString => None
       | String _ s' => option_map S (find search s')
       end.

(** [s.indexOf(search, position)]; [None] stands for the result [-1]. *)
Definition indexOf (s search : string) (position : nat) : option nat :=
  option_map (Nat.add (Nat.min position (String.length s))) (find search (drop position s)).

(** [io.join('')]. *)
Definition join (io : list string) : string := fold_right append "" io.

(** [String(s[i])]: the character at [i] as a one-character string, or
    the text of [undefined] when [i] is out of range. *)
Definition charAtOrUndefined (s : string) (i : nat) : string :=
  match get i s with
  | Some c => String c ""
  | None => "undefined"
  end.

End JsString.
Import JsString.

(* ================================================================= *)
(** ** Outcomes of a call *)

Inductive JsError := TypeError | SyntaxError.

Inductive outcome (A : Type) : Type :=
| Ret (a : A)            (* normal completion *)
| Throw (e : JsError)    (* abrupt completion *)
| OutOfFuel              (* the model ran out of fuel *)
| Unsupported.           (* a pattern outside the modelled fragment *)
Arguments Ret {A} a.
Arguments Throw {A} e.
Arguments OutOfFuel {A}.
Arguments Unsupported {A}.

Definition bind {A B} (m : outcome A) (k : A -> outcome B) : outcome B :=
  match m with
  | Ret a => k a
  | Throw e => Throw e
  | OutOfFuel => OutOfFuel
  | Unsupported => Unsupported
  end.

Declare Scope outcome_scope.
Delimit Scope outcome_scope with outcome.
Notation "x <- m ;; k" := (bind m (fun x => k))
  (at level 61, m at next level, right associativity) : outcome_scope.
Notation "' p <- m ;; k" := (bind m (fun x => let p := x in k))
  (at level 61, p pattern, m at next level, right associativity) : outcome_scope.
Open Scope outcome_scope.

(* ================================================================= *)
(** ** Data model *)

(** A delimiter: [string | RegExp] by its declared type; [PUndefined] is
    the value the registry stores when the options gave none.  Of a
    [RegExp] the source only reads [.source]. *)
Inductive Pattern :=
| PString (s : string)
| PRegExp (source : string)
| PUndefined.

Record Transformer := mkTransformer {
  name : string;
  open : Pattern;
  close : Pattern;
  recursive : bool;
  padding : bool;
  validate : string -> bool;
  transformer : string -> string
}.

(** [TransformerOptions]: [None] is an absent property.  [name] and
    [transformer] are mandatory in the declared type. *)
Record TransformerOptions := mkOptions {
  o_name : string;
  o_symbol : option Pattern;
  o_open : option Pattern;
  o_close : option Pattern;
  o_recursive : option bool;
  o_padding : option bool;
  o_validate : option (string -> bool);
  o_transformer : string -> string
}.

Definition or_undefined (p : option Pattern) : Pattern :=
  match p with Some x => x | None => PUndefined end.

(** Truthiness of a delimiter value, for [params.symbol || params.open]. *)
Definition truthy (p : Pattern) : bool :=
  match p with
  | PString s => negb (String.eqb s "")
  | PRegExp _ => true
  | PUndefined => false
  end.

Definition override {A} (dflt : A) (given : option A) : A :=
  match given with Some x => x | None => dflt end.

(** The object built by [Object.assign({...defaults}, params)]. *)
Definition assign_defaults (params : TransformerOptions) : Transformer :=
  let symbol := or_undefined (o_symbol params) in
  {| name := o_name params;
     open := override symbol (o_open params);
     close := override (if truthy symbol then symbol else or_undefined (o_open params))
                       (o_close params);
     recursive := override true (o_recursive params);
     padding := override true (o_padding params);
     validate := override (fun _ => true) (o_validate params);
     transformer := o_transformer params |}.

(** [addTransformer]: the registry after the call.  The body has no
    [throw] and calls nothing that throws, hence the [Ret]. *)
Definition addTransformer (transformers : list Transformer) (params : TransformerOptions)
  : outcome (list Transformer) :=
  Ret (transformers ++ [assign_defaults params])%list.

(* ================================================================= *)
(** ** The scanners *)

(** Result of [regexp.exec(input)]: [None] is [null]; otherwise the
    matched text and the capture groups 1, 2, ... ([None] for a group
    that did not take part). *)
Definition ExecResult : Type := option (string * list (option string)).

(** Ephemeral state of one [format] call. *)
Record ScanState := mkScan {
  pos : nat;
  lastSlice : nat;
  io : list string
}.

Definition set_pos (st : ScanState) (p : nat) : ScanState :=
  {| pos := p; lastSlice := lastSlice st; io := io st |}.

(** Ephemeral state of one [formatRegex] call. *)
Record RegexState := mkRegexState {
  rx_pos : nat;
  rx_lastPos : nat;
  rx_io : list string
}.

(** A delimiter spliced into a template literal, or coerced by
    [startsWith] / [indexOf]. *)
Definition text_of (p : Pattern) : string :=
  match p with
  | PString s => s
  | PRegExp source => source
  | PUndefined => "undefined"
  end.

(** [p.length] on the literal path of [format]; reading it of
    [undefined] throws.  The [RegExp] case is not reached there. *)
Definition length_of (p : Pattern) : outcome nat :=
  match p with
  | PString s => Ret (String.length s)
  | PUndefined => Throw TypeError
  | PRegExp _ => Unsupported
  end.

Definition is_RegExp (p : Pattern) : bool :=
  match p with PRegExp _ => true | _ => false end.

Definition nonempty (s : string) : bool := negb (String.eqb s "").

(** Line terminators, which [.] does not match. *)
Definition is_line_terminator (c : ascii) : bool :=
  (Ascii.eqb c "010" || Ascii.eqb c "013")%bool.

(** [s.replace(/(.)/, "\\$1")]: the pattern has no [g] flag, so only its
    first match, the first character that is not a line terminator, is
    replaced by a backslash and itself. *)
Fixpoint replace_first_char (s : string) : string :=
  match s with
  | EmptyString => EmptyString
  | String c s' =>
      if is_line_terminator c then String c (replace_first_char s')
      else String "\" (String c s')
  end.

Definition normalizePattern (pattern : Pattern) : outcome string :=
  match pattern with
  | PRegExp source => Ret source
  | PString s => Ret (replace_first_char s)
  | PUndefined => Throw TypeError
  end.

Section Scanner.

(** [new RegExp(source).exec(input)], by the platform. *)
Variable regexp_exec : string -> string -> outcome ExecResult.

Section FormatBody.

(** [this.format], for the nested call on a rewritten fragment. *)
Variable self_format : string -> outcome string.
Variable transformers : list Transformer.
Variable text : string.

Definition accept (s : string) (offset : nat) (st : ScanState) : bool :=
  startsWith text s (pos st + offset).

Definition untilSymbol (symbol : string) (st : ScanState) : ScanState :=
  match indexOf text symbol (pos st) with
  | None => set_pos st (String.length text)
  | Some i => set_pos st i
  end.

Definition slice_to_io (st : ScanState) : ScanState :=
  {| pos := pos st;
     lastSlice := pos st;
     io := io st ++ [slice text (lastSlice st) (pos st)] |}.

(** [while(accept(close, 1)) { pos += open.length + 1; untilSymbol(close) }] *)
Fixpoint padding_loop (fuel : nat) (open_length : nat) (close_s : string)
         (st : ScanState) : outcome ScanState :=
  if accept close_s 1 st then
    match fuel with
    | 0 => OutOfFuel
    | S fuel' =>
        padding_loop fuel' open_length close_s
          (untilSymbol close_s (set_pos st (pos st + (open_length + 1))))
    end
  else Ret st.

(** The branch of the [some] callback taken when [open] or [close] is
    a [RegExp]; it always answers [false]. *)
Definition regex_attempt (m : Transformer) (st : ScanState)
  : outcome (bool * ScanState) :=
  rmatch <- regexp_exec ("^" ++ text_of (open m) ++ "(.+?)" ++ text_of (close m)) text;;
  match rmatch with
  | Some (raw, Some g1 :: _) =>
      if (nonempty g1 && validate m g1)%bool then
        let p := pos st + String.length raw in
        Ret (false, {| pos := p; lastSlice := p; io := io st ++ [transformer m g1] |})
      else Ret (false, st)
  | _ => Ret (false, st)
  end.

(** The literal branch of the [some] callback. *)
Definition literal_attempt (fuel : nat) (m : Transformer) (st : ScanState)
  : outcome (bool * ScanState) :=
  let open_s := text_of (open m) in
  let close_s := text_of (close m) in
  if accept open_s 0 st then
    open_length <- length_of (open m);;
    let st1 := set_pos st (pos st + open_length) in
    let fromPos := pos st1 in
    let st2 := untilSymbol close_s st1 in
    st3 <- (if padding m then padding_loop fuel open_length close_s st2 else Ret st2);;
    let toPos := pos st3 in
    let matchedText := slice text fromPos toPos in
    if validate m matchedText then
      if accept close_s 0 st3 then
        parsed <- (if recursive m then self_format (transformer m matchedText)
                   else Ret (transformer m matchedText));;
        close_length <- length_of (close m);;
        let p := pos st3 + close_length in
        Ret (true, {| pos := p; lastSlice := p; io := io st3 ++ [parsed] |})
      else Ret (false, st3)
    else Ret (false, set_pos st3 fromPos)
  else Ret (false, st).

(** What a firing transformer [m] appends for the span [s]: the
    rewrite, passed through [format] again when [m] is recursive. *)
Definition rewritten (m : Transformer) (s : string) : outcome string :=
  if recursive m then self_format (transformer m s) else Ret (transformer m s).

(** The callback passed to [matches.some]. *)
Definition attempt (fuel : nat) (m : Transformer) (st : ScanState)
  : outcome (bool * ScanState) :=
  if (is_RegExp (open m) || is_RegExp (close m))%bool then regex_attempt m st
  else literal_attempt fuel m st.

(** [matches.some(callback)]: in order, stopping at the first [true];
    the state changes of the callbacks that answered [false] stay. *)
Fixpoint some_matches (fuel : nat) (ms : list Transformer) (st : ScanState)
  : outcome (bool * ScanState) :=
  match ms with
  | [] => Ret (false, st)
  | m :: ms' =>
      r <- attempt fuel m st;;
      if fst r then Ret (true, snd r) else some_matches fuel ms' (snd r)
  end.

(** The predicate of [this.transformers.filter]. *)
Definition is_match (st : ScanState) (t : Transformer) : bool :=
  match open t with
  | PString o =>
      match indexOf text o (pos st) with
      | Some i => Nat.eqb i (pos st)
      | None => false
      end
  | _ => true
  end.

(** One turn of [while(pos < text.length)]. *)
Definition iteration (fuel : nat) (st : ScanState) : outcome ScanState :=
  let matches := filter (is_match st) transformers in
  if Nat.ltb 0 (List.length matches) then
    r <- some_matches fuel matches st;;
    if fst r then Ret (snd r)
    else Ret (slice_to_io (set_pos (snd r) (pos (snd r) + 1)))
  else Ret (slice_to_io (set_pos st (pos st + 1))).

(** The scanning loop: [fuel] bounds its turns, [inner] is the fuel
    handed to the padding loop of every turn. *)
Fixpoint scan (inner fuel : nat) (st : ScanState) : outcome ScanState :=
  if Nat.ltb (pos st) (String.length text) then
    match fuel with
    | 0 => OutOfFuel
    | S fuel' => st' <- iteration inner st;; scan inner fuel' st'
    end
  else Ret st.

End FormatBody.

Definition initial : ScanState := {| pos := 0; lastSlice := 0; io := [] |}.

(** [format(text)].  The fuel bounds the depth of nested [format]
    calls, the turns of the scanning loop and the turns of each padding
    loop. *)
Fixpoint format (fuel : nat) (transformers : list Transformer) (text : string)
  : outcome string :=
  match fuel with
  | 0 => OutOfFuel
  | S fuel' =>
      st <- scan (format fuel' transformers) transformers text fuel' fuel' initial;;
      Ret (join (io st))
  end.

Section FormatRegexBody.

Variable text : string.

(** The callback passed to [this.transformers.some] in [formatRegex]. *)
Definition regex_callback (t : Transformer) (st : RegexState)
  : outcome (bool * RegexState) :=
  o <- normalizePattern (open t);;
  c <- normalizePattern (close t);;
  rmatch <- regexp_exec ("^" ++ o ++ "(.+?)" ++ c) (drop (rx_pos st) text);;
  match rmatch with
  | Some (raw, Some matchedText :: _) =>
      if (nonempty raw && nonempty matchedText && validate t matchedText)%bool then
        let io1 := (rx_io st ++ [slice text (rx_lastPos st) (rx_pos st)])%list in
        let lastPos1 := rx_pos st in
        let transformed := transformer t matchedText in
        let pos1 := rx_pos st + String.length raw in
        let fired :=
          {| rx_pos := pos1; rx_lastPos := pos1; rx_io := (io1 ++ [transformed])%list |} in
        if padding t then
          c' <- normalizePattern (close t);;
          next <- regexp_exec c' (charAtOrUndefined text pos1);;
          match next with
          | Some _ =>
              Ret (false, {| rx_pos := pos1 + 1; rx_lastPos := lastPos1; rx_io := io1 |})
          | None => Ret (true, fired)
          end
        else Ret (true, fired)
      else Ret (false, st)
  | _ => Ret (false, st)
  end.

Fixpoint some_transformers (ts : list Transformer) (st : RegexState)
  : outcome (bool * RegexState) :=
  match ts with
  | [] => Ret (false, st)
  | t :: ts' =>
      r <- regex_callback t st;;
      if fst r then Ret (true, snd r) else some_transformers ts' (snd r)
  end.

Definition regex_iteration (transformers : list Transformer) (st : RegexState)
  : outcome RegexState :=
  r <- some_transformers transformers st;;
  if fst r then Ret (snd r)
  else Ret {| rx_pos := rx_pos (snd r) + 1;
              rx_lastPos := rx_lastPos (snd r);
              rx_io := rx_io (snd r) |}.

Fixpoint regex_scan (fuel : nat) (transformers : list Transformer) (st : RegexState)
  : outcome RegexState :=
  if Nat.ltb (rx_pos st) (String.length text) then
    match fuel with
    | 0 => OutOfFuel
    | S fuel' => st' <- regex_iteration transformers st;; regex_scan fuel' transformers st'
    end
  else Ret st.

End FormatRegexBody.

(** [formatRegex(text)]; the fuel bounds the turns of its loop. *)
Definition formatRegex (fuel : nat) (transformers : list Transformer) (text : string)
  : outcome string :=
  st <- regex_scan text fuel transformers
          {| rx_pos := 0; rx_lastPos := 0; rx_io := [] |};;
  Ret (join (rx_io st ++ [slice text (rx_lastPos st) (rx_pos st)])).

End Scanner.

(* ================================================================= *)
(** ** A reference [RegExp] engine for a fragment of the pattern syntax

    Enough of the platform's backtracking matcher to run the patterns
    that the scanners build from literal delimiters: characters, [\c]
    for a punctuation character [c], [.], [^], capture groups, and the
    quantifiers [*], [+], [?] (greedy or lazy) on a single character or
    [.].  Anything else is answered [Unsupported]. *)

Module RegExp.

Inductive Atom :=
| AChar (c : ascii)
| ADot.

Inductive Node :=
| NEmpty
| NAtom (a : Atom)
| NStar (a : Atom) (greedy : bool)
| NPlus (a : Atom) (greedy : bool)
| NOpt (a : Atom) (greedy : bool)
| NBol
| NGroup (index : nat) (body : Node)
| NSeq (r1 r2 : Node).

Inductive ParseResult (A : Type) :=
| POk (a : A)
| PSyntaxError
| PUnsupported.
Arguments POk {A} a.
Arguments PSyntaxError {A}.
Arguments PUnsupported {A}.

Definition in_string (c : ascii) (s : string) : bool :=
  existsb (Ascii.eqb c) (list_ascii_of_string s).

(** Characters whose escape [\c] stands for the character itself. *)
Definition is_punctuation (c : ascii) : bool :=
  in_string c "!#%&,-/:;<=>@`~'^$\.*+?()[]{}|".

Definition is_quantifier (c : ascii) : bool := in_string c "*+?".

Definition starts_with_quantifier (s : string) : bool :=
  match s with
  | String c _ => is_quantifier c
  | EmptyString => false
  end.

(** An atom followed by its optional quantifier. *)
Definition quantified (a : Atom) (rest : string) : Node * string :=
  let lazy (r : string) : bool * string :=
    match r with
    | String "?" r' => (false, r')
    | _ => (true, r)
    end in
  match rest with
  | String "*" r => (NStar a (fst (lazy r)), snd (lazy r))
  | String "+" r => (NPlus a (fst (lazy r)), snd (lazy r))
  | String "?" r => (NOpt a (fst (lazy r)), snd (lazy r))
  | _ => (NAtom a, rest)
  end.

(** A sequence of terms, up to the end of the source or an unmatched
    closing parenthesis; [n] counts the groups opened so far. *)
Fixpoint parse_seq (fuel : nat) (src : string) (n : nat)
  : ParseResult (Node * string * nat) :=
  match fuel with
  | 0 => PUnsupported
  | S fuel' =>
      match src with
      | EmptyString => POk (NEmpty, src, n)
      | String c rest =>
          if Ascii.eqb c ")" then POk (NEmpty, src, n)
          else
            let term : ParseResult (Node * string * nat) :=
              if Ascii.eqb c "(" then
                if starts_with_quantifier rest then PUnsupported
                else
                  match parse_seq fuel' rest (S n) with
                  | POk (body, String ")" rest', n') =>
                      if starts_with_quantifier rest' then PUnsupported
                      else POk (NGroup n body, rest', n')
                  | POk _ => PSyntaxError
                  | PSyntaxError => PSyntaxError
                  | PUnsupported => PUnsupported
                  end
              else if Ascii.eqb c "^" then
                if starts_with_quantifier rest then PUnsupported
                else POk (NBol, rest, n)
              else if Ascii.eqb c "\" then
                match rest with
                | EmptyString => PSyntaxError
                | String e rest' =>
                    if is_punctuation e then
                      let q := quantified (AChar e) rest' in POk (fst q, snd q, n)
                    else PUnsupported
                end
              else if Ascii.eqb c "." then
                let q := quantified ADot rest in POk (fst q, snd q, n)
              else if is_quantifier c then PSyntaxError
              else if in_string c "$[]{}|" then PUnsupported
              else
                let q := quantified (AChar c) rest in POk (fst q, snd q, n)
            in
            match term with
            | POk (t, rest1, n1) =>
                match parse_seq fuel' rest1 n1 with
                | POk (r, rest2, n2) => POk (NSeq t r, rest2, n2)
                | PSyntaxError => PSyntaxError
                | PUnsupported => PUnsupported
                end
            | PSyntaxError => PSyntaxError
            | PUnsupported => PUnsupported
            end
      end
  end.

(** [new RegExp(source)]: the pattern and its number of groups. *)
Definition parse (source : string) : ParseResult (Node * nat) :=
  match parse_seq (S (String.length source)) source 0 with
  | POk (r, EmptyString, n) => POk (r, n)
  | POk (_, String _ _, _) => PSyntaxError
  | PSyntaxError => PSyntaxError
  | PUnsupported => PUnsupported
  end.

Definition Captures : Type := list (option string).

Fixpoint set_capture (i : nat) (v : string) (caps : Captures) : Captures :=
  match i, caps with
  | _, [] => []
  | 0, _ :: caps' => Some v :: caps'
  | S i', x :: caps' => x :: set_capture i' v caps'
  end.

Definition atom_matches (a : Atom) (c : ascii) : bool :=
  match a with
  | AChar x => Ascii.eqb x c
  | ADot => negb (is_line_terminator c)
  end.

Definition or_else {A} (x y : option A) : option A :=
  match x with Some _ => x | None => y end.

Section Matcher.

Context {R : Type}.

(** [a*]: as many as possible first. *)
Fixpoint star_greedy (a : Atom) (i : nat) (s : string)
         (k : nat -> string -> option R) : option R :=
  match s with
  | String c s' =>
      if atom_matches a c then or_else (star_greedy a (S i) s' k) (k i s)
      else k i s
  | EmptyString => k i s
  end.

(** [a*?]: as few as possible first. *)
Fixpoint star_lazy (a : Atom) (i : nat) (s : string)
         (k : nat -> string -> option R) : option R :=
  or_else (k i s)
    match s with
    | String c s' => if atom_matches a c then star_lazy a (S i) s' k else None
    | EmptyString => None
    end.

Definition star (greedy : bool) := if greedy then star_greedy else star_lazy.

(** Backtracking matcher in continuation-passing style: [i] is the
    index in [input] of the first character of [s]. *)
Fixpoint run (input : string) (r : Node) (i : nat) (s : string) (caps : Captures)
         (k : nat -> string -> Captures -> option R) : option R :=
  match r with
  | NEmpty => k i s caps
  | NAtom a =>
      match s with
      | String c s' => if atom_matches a c then k (S i) s' caps else None
      | EmptyString => None
      end
  | NStar a greedy => star greedy a i s (fun i' s' => k i' s' caps)
  | NPlus a greedy =>
      match s with
      | String c s' =>
          if atom_matches a c then star greedy a (S i) s' (fun i' s' => k i' s' caps)
          else None
      | EmptyString => None
      end
  | NOpt a greedy =>
      let one :=
        match s with
        | String c s' => if atom_matches a c then k (S i) s' caps else None
        | EmptyString => None
        end in
      if greedy then or_else one (k i s caps) else or_else (k i s caps) one
  | NBol => if Nat.eqb i 0 then k i s caps else None
  | NGroup index body =>
      run input body i s caps
        (fun i' s' caps' => k i' s' (set_capture index (slice input i i') caps'))
  | NSeq r1 r2 =>
      run input r1 i s caps (fun i' s' caps' => run input r2 i' s' caps' k)
  end.

End Matcher.

(** The first start position at which the pattern matches. *)
Fixpoint search (input : string) (r : Node) (ngroups : nat) (i : nat) (s : string)
  : option (nat * nat * Captures) :=
  match run input r i s (repeat None ngroups) (fun e _ caps => Some (e, caps)) with
  | Some (e, caps) => Some (i, e, caps)
  | None =>
      match s with
      | String _ s' => search input r ngroups (S i) s'
      | EmptyString => None
      end
  end.

(** [new RegExp(source).exec(input)]. *)
Definition exec (source input : string) : outcome ExecResult :=
  match parse source with
  | POk (r, ngroups) =>
      Ret match search input r ngroups 0 input with
          | Some (b, e, caps) => Some (slice input b e, caps)
          | None => None
          end
  | PSyntaxError => Throw SyntaxError
  | PUnsupported => Unsupported
  end.

End RegExp.

(* ================================================================= *)
(** ** Transformers of the documented scenarios *)

Definition wrap (tag s : string) : string := "<" ++ tag ++ ">" ++ s ++ "</" ++ tag ++ ">".

(** [{ name, symbol, transformer }] with every other option left out. *)
Definition symbol_options (nm symbol : string) (f : string -> string) : TransformerOptions :=
  {| o_name := nm; o_symbol := Some (PString symbol); o_open := None; o_close := None;
     o_recursive := None; o_padding := None; o_validate := None; o_transformer := f |}.

Definition italic : Transformer := assign_defaults (symbol_options "italic" "*" (wrap "i")).
Definition bold : Transformer := assign_defaults (symbol_options "bold" "**" (wrap "b")).

(** [{ symbol, recursive: false, transformer }]. *)
Definition verbatim_options (nm symbol : string) (f : string -> string) : TransformerOptions :=
  {| o_name := nm; o_symbol := Some (PString symbol); o_open := None; o_close := None;
     o_recursive := Some false; o_padding := None; o_validate := None; o_transformer := f |}.

Definition code : Transformer := assign_defaults (verbatim_options "code" "`" (wrap "code")).

(** [{ symbol, validate, transformer }]. *)
Definition guarded_options (nm symbol : string) (ok : string -> bool) (f : string -> string)
  : TransformerOptions :=
  {| o_name := nm; o_symbol := Some (PString symbol); o_open := None; o_close := None;
     o_recursive := None; o_padding := None; o_validate := Some ok; o_transformer := f |}.

(** An italic transformer that refuses empty spans. *)
Definition italic_nonempty : Transformer :=
  assign_defaults (guarded_options "italic" "*" nonempty (wrap "i")).

(** A second transformer on the delimiter of italic. *)
Definition em : Transformer := assign_defaults (symbol_options "em" "*" (wrap "em")).

(** [{ symbol, padding: false, transformer }]. *)
Definition unpadded_options (nm symbol : string) (f : string -> string) : TransformerOptions :=
  {| o_name := nm; o_symbol := Some (PString symbol); o_open := None; o_close := None;
     o_recursive := None; o_padding := Some false; o_validate := None; o_transformer := f |}.

Definition bold_unpadded : Transformer :=
  assign_defaults (unpadded_options "bold" "**" (wrap "b")).

(** [{ name, transformer }]: neither [symbol] nor [open]. *)
Definition bare_options : TransformerOptions :=
  {| o_name := "bare"; o_symbol := None; o_open := None; o_close := None;
     o_recursive := None; o_padding := None; o_validate := None; o_transformer := wrap "i" |}.

(** A transformer that the termination result covers: not recursive,
    with literal, non-empty delimiters. *)
Definition non_recursive_literal (m : Transformer) : bool :=
  (negb (recursive m) &&
   match open m, close m with
   | PString o, PString c => nonempty o && nonempty c
   | _, _ => false
   end)%bool.

(** What the specification says of normalization: every character of a
    literal delimiter is escaped.  Kept apart from [normalizePattern],
    which is what the source does. *)
Fixpoint escape_each_char (s : string) : string :=
  match s with
  | EmptyString => EmptyString
  | String c s' => String "\" (String c (escape_each_char s'))
  end.

(* ================================================================= *)
(** ** Notions used to state further properties *)

(** A transformer on the literal path with a non-empty closing delimiter. *)
Definition literal_closed (m : Transformer) : bool :=
  match open m, close m with
  | PString _, PString c => nonempty c
  | _, _ => false
  end.

(** The same transformer with another [recursive] flag. *)
Definition with_recursive (b : bool) (m : Transformer) : Transformer :=
  {| name := name m; open := open m; close := close m; recursive := b;
     padding := padding m; validate := validate m; transformer := transformer m |}.

(** Neither delimiter is a [RegExp]. *)
Definition without_RegExp (m : Transformer) : bool :=
  negb (is_RegExp (open m) || is_RegExp (close m)).

(** What a successful attempt of [m], with literal delimiters [o] and
    [c], at the cursor of [st] looks like: [to] is where the closing
    delimiter was found. *)
Definition fires_at (text : string) (m : Transformer) (o c : string)
           (st : ScanState) (to : nat) : Prop :=
  startsWith text o (pos st) = true /\
  pos st + String.length o <= to /\
  to + String.length c <= String.length text /\
  startsWith text c to = true /\
  validate m (slice text (pos st + String.length o) to) = true /\
  (padding m = true -> startsWith text c (to + 1) = false) /\
  (padding m = false ->
   forall q, pos st + String.length o <= q -> q < to -> startsWith text c q = false).

(** The state a successful attempt leaves. *)
Definition fired_state (c : string) (st : ScanState) (to : nat) (parsed : string)
  : ScanState :=
  {| pos := to + String.length c;
     lastSlice := to + String.length c;
     io := io st ++ [parsed] |}.

(** A fragment of the output of [format] on [text]: a slice of the
    input, or what a registered transformer made of a slice that its
    [validate] accepted ([self] being the nested [format]). *)
Definition fragment_of (self : string -> outcome string) (transformers : list Transformer)
           (text piece : string) : Prop :=
  (exists a b, piece = slice text a b) \/
  (exists m a b,
      In m transformers /\ validate m (slice text a b) = true /\
      rewritten self m (slice text a b) = Ret piece).

(** The engine answers, whatever the input, on the two patterns that
    [formatRegex] builds for the transformer. *)
Definition engine_answers (regexp_exec : string -> string -> outcome ExecResult)
           (t : Transformer) : Prop :=
  exists o c,
    normalizePattern (open t) = Ret o /\ normalizePattern (close t) = Ret c /\
    (forall input, exists r, regexp_exec ("^" ++ o ++ "(.+?)" ++ c) input = Ret r) /\
    (forall input, exists r, regexp_exec c input = Ret r).


(** At no position of the text does the engine find a match for the
    combined pattern that [formatRegex] builds for the transformer. *)
Definition never_matches (regexp_exec : string -> string -> outcome ExecResult)
           (text : string) (t : Transformer) : Prop :=
  exists o c,
    normalizePattern (open t) = Ret o /\ normalizePattern (close t) = Ret c /\
    forall p, p < String.length text ->
              regexp_exec ("^" ++ o ++ "(.+?)" ++ c) (drop p text) = Ret None.

(** The pattern that the [RegExp] branch of [format] builds for [m]. *)
Definition combined_source (m : Transformer) : string :=
  "^" ++ text_of (open m) ++ "(.+?)" ++ text_of (close m).

(** The engine finds the normalized closing pattern of [t] in every
    input (as it does for a pattern that matches the empty string). *)
Definition close_always_found (regexp_exec : string -> string -> outcome ExecResult)
           (t : Transformer) : Prop :=
  exists c,
    normalizePattern (close t) = Ret c /\
    forall input, exists found, regexp_exec c input = Ret (Some found).

(** [{ symbol: /\*/, transformer }]: italic with a [RegExp] symbol. *)
Definition italic_pattern : Transformer :=
  assign_defaults
    {| o_name := "italic"; o_symbol := Some (PRegExp "\*"); o_open := None;
       o_close := None; o_recursive := None; o_padding := None;
       o_validate := None; o_transformer := wrap "i" |}.

(** In [formatRegex], what has been committed is the text up to the
    emit boundary. *)
Definition committed (text : string) (st : RegexState) : Prop :=
  join (rx_io st) = take (rx_lastPos st) text /\ rx_lastPos st <= rx_pos st.

(** A fragment of the output of [formatRegex] on [text]: a slice of the
    input, or what a registered transformer made of the first group of
    a match that the engine found at some position and that [validate]
    accepted. *)
Definition regex_fragment_of (regexp_exec : string -> string -> outcome ExecResult)
           (transformers : list Transformer) (text piece : string) : Prop :=
  (exists a b, piece = slice text a b) \/
  (exists t o c p raw g gs,
      In t transformers /\
      normalizePattern (open t) = Ret o /\ normalizePattern (close t) = Ret c /\
      regexp_exec ("^" ++ o ++ "(.+?)" ++ c) (drop p text) = Ret (Some (raw, Some g :: gs)) /\
      validate t g = true /\ piece = transformer t g).

(* ================================================================= *)
(** ** Fuel: more fuel never changes an answer *)

(** [o'] answers whatever [o] answers. *)
Definition le_outcome {A} (o o' : outcome A) : Prop := o = OutOfFuel \/ o' = o.

Lemma le_outcome_refl {A} (o : outcome A) : le_outcome o o.
Proof. now right. Qed.

Lemma le_outcome_bind {A B} (m m' : outcome A) (k k' : A -> outcome B) :
  le_outcome m m' -> (forall a, le_outcome (k a) (k' a)) ->
  le_outcome (bind m k) (bind m' k').
Proof.
  intros [-> | ->] Hk.
  - now left.
  - destruct m as [a | e | |]; simpl; auto using le_outcome_refl.
Qed.

Lemma le_outcome_Ret {A} (o o' : outcome A) (a : A) :
  le_outcome o o' -> o = Ret a -> o' = Ret a.
Proof. intros [-> | ->]; congruence. Qed.

Section FuelMonotone.

Variable regexp_exec : string -> string -> outcome ExecResult.
Variable transformers : list Transformer.
Variable text : string.

Lemma padding_loop_mono (open_length : nat) (close_s : string) :
  forall fuel fuel' st, fuel <= fuel' ->
    le_outcome (padding_loop text fuel open_length close_s st)
               (padding_loop text fuel' open_length close_s st).
Proof.
  induction fuel as [| fuel IH]; intros fuel' st Hle.
  - destruct fuel'; simpl; destruct (accept text close_s 1 st);
      (now left) || (now right).
  - destruct fuel' as [| fuel']; [lia |].
    simpl. destruct (accept text close_s 1 st).
    + apply IH. lia.
    + apply le_outcome_refl.
Qed.

Section Self.

Variables self self' : string -> outcome string.
Hypothesis self_le : forall s, le_outcome (self s) (self' s).

Lemma attempt_mono (m : Transformer) (st : ScanState) (fuel fuel' : nat) :
  fuel <= fuel' ->
  le_outcome (attempt regexp_exec self text fuel m st)
             (attempt regexp_exec self' text fuel' m st).
Proof.
  intros Hle. unfold attempt.
  destruct (is_RegExp (open m) || is_RegExp (close m))%bool.
  - apply le_outcome_refl.
  - unfold literal_attempt.
    destruct (accept text (text_of (open m)) 0 st); [| apply le_outcome_refl].
    apply le_outcome_bind; [apply le_outcome_refl | intros open_length].
    apply le_outcome_bind.
    + destruct (padding m); [now apply padding_loop_mono | apply le_outcome_refl].
    + intros st3.
      destruct (validate m _); [| apply le_outcome_refl].
      destruct (accept text (text_of (close m)) 0 st3); [| apply le_outcome_refl].
      apply le_outcome_bind.
      * destruct (recursive m); [apply self_le | apply le_outcome_refl].
      * intros parsed. apply le_outcome_refl.
Qed.

Lemma some_matches_mono (fuel fuel' : nat) :
  fuel <= fuel' ->
  forall ms st,
    le_outcome (some_matches regexp_exec self text fuel ms st)
               (some_matches regexp_exec self' text fuel' ms st).
Proof.
  intros Hle. induction ms as [| m ms IH]; intros st; simpl.
  - apply le_outcome_refl.
  - apply le_outcome_bind; [now apply attempt_mono |].
    intros [b st']; simpl. destruct b; [apply le_outcome_refl | apply IH].
Qed.

Lemma iteration_mono (fuel fuel' : nat) (st : ScanState) :
  fuel <= fuel' ->
  le_outcome (iteration regexp_exec self transformers text fuel st)
             (iteration regexp_exec self' transformers text fuel' st).
Proof.
  intros Hle. unfold iteration.
  destruct (Nat.ltb 0 _); [| apply le_outcome_refl].
  apply le_outcome_bind; [now apply some_matches_mono |].
  intros r. apply le_outcome_refl.
Qed.

Lemma scan_mono (inner inner' : nat) :
  inner <= inner' ->
  forall fuel fuel' st, fuel <= fuel' ->
    le_outcome (scan regexp_exec self transformers text inner fuel st)
               (scan regexp_exec self' transformers text inner' fuel' st).
Proof.
  intros Hin. induction fuel as [| fuel IH]; intros fuel' st Hle.
  - destruct fuel'; simpl; destruct (Nat.ltb (pos st) _);
      (now left) || (now right).
  - destruct fuel' as [| fuel']; [lia |].
    simpl. destruct (Nat.ltb (pos st) _); [| apply le_outcome_refl].
    apply le_outcome_bind; [now apply iteration_mono |].
    intros st'. apply IH. lia.
Qed.

End Self.

End FuelMonotone.

Lemma format_mono (regexp_exec : string -> string -> outcome ExecResult)
      (transformers : list Transformer) :
  forall fuel fuel' text, fuel <= fuel' ->
    le_outcome (format regexp_exec fuel transformers text)
               (format regexp_exec fuel' transformers text).
Proof.
  induction fuel as [| fuel IH]; intros fuel' text Hle.
  - now left.
  - destruct fuel' as [| fuel']; [lia |].
    simpl. apply le_outcome_bind.
    + apply scan_mono; try lia. intros s. apply IH. lia.
    + intros st. apply le_outcome_refl.
Qed.

(** A result obtained with some fuel is the result with any larger fuel. *)
Lemma format_more_fuel (regexp_exec : string -> string -> outcome ExecResult)
      (transformers : list Transformer) (text out : string) (fuel fuel' : nat) :
  format regexp_exec fuel transformers text = Ret out -> fuel <= fuel' ->
  format regexp_exec fuel' transformers text = Ret out.
Proof.
  intros H Hle. eapply le_outcome_Ret; [apply format_mono, Hle | exact H].
Qed.
(* ================================================================= *)
(** ** Facts about the string primitives *)

Lemma append_empty_r (s : string) : s ++ "" = s.
Proof. induction s; simpl; congruence. Qed.

Lemma append_assoc (a b c : string) : (a ++ b) ++ c = a ++ (b ++ c).
Proof. induction a; simpl; congruence. Qed.

Lemma join_app (l1 l2 : list string) : join (l1 ++ l2) = join l1 ++ join l2.
Proof.
  induction l1 as [| x l1 IH]; simpl; [reflexivity |].
  now rewrite IH, append_assoc.
Qed.

Lemma join_snoc (l : list string) (x : string) : join (l ++ [x]) = join l ++ x.
Proof. rewrite join_app. simpl. now rewrite append_empty_r. Qed.

Lemma drop_empty (n : nat) : drop n "" = "".
Proof. now destruct n. Qed.

Lemma length_drop (n : nat) : forall s, String.length (drop n s) = String.length s - n.
Proof.
  induction n as [| n IH]; intros [| c s]; simpl; auto.
Qed.

Lemma drop_add (a b : nat) : forall s, drop (a + b) s = drop b (drop a s).
Proof.
  induction a as [| a IH]; intros [| c s]; simpl; auto using drop_empty.
Qed.

Lemma drop_all (s : string) (n : nat) : String.length s <= n -> drop n s = "".
Proof.
  revert s. induction n as [| n IH]; intros [| c s]; simpl; intros H; auto; try lia.
  apply IH. lia.
Qed.

Lemma take_drop (n : nat) : forall s, take n s ++ drop n s = s.
Proof.
  induction n as [| n IH]; intros [| c s]; simpl; auto.
  now rewrite IH.
Qed.

(** The next character and what follows it make up the rest. *)
Lemma slice_one_drop (s : string) (p : nat) :
  slice s p (p + 1) ++ drop (p + 1) s = drop p s.
Proof.
  unfold slice. replace (p + 1 - p) with 1 by lia.
  rewrite drop_add. apply take_drop.
Qed.

Lemma prefix_length : forall a b, prefix a b = true -> String.length a <= String.length b.
Proof.
  induction a as [| x a IH]; intros [| y b]; simpl; intros H; try lia; try discriminate.
  destruct (ascii_dec x y); [| discriminate].
  apply IH in H. lia.
Qed.

Lemma find_eq (search s : string) :
  find search s =
  if prefix search s then Some 0
  else match s with
       | EmptyString => None
       | String _ s' => option_map S (find search s')
       end.
Proof. destruct s; reflexivity. Qed.

Lemma find_bound (search : string) :
  forall s k, find search s = Some k -> k + String.length search <= String.length s.
Proof.
  induction s as [| c s IH]; intros k; rewrite find_eq;
    destruct (prefix search _) eqn:E.
  - intros [= <-]. apply prefix_length in E. simpl in *. lia.
  - discriminate.
  - intros [= <-]. apply prefix_length in E. simpl in *. lia.
  - destruct (find search s) as [j |]; simpl; [| discriminate].
    intros [= <-]. specialize (IH j eq_refl). lia.
Qed.

Lemma indexOf_bounds (s search : string) (p i : nat) :
  indexOf s search p = Some i ->
  Nat.min p (String.length s) <= i /\ i + String.length search <= String.length s.
Proof.
  unfold indexOf. destruct (find search (drop p s)) as [k |] eqn:E; simpl; [| discriminate].
  intros [= <-]. apply find_bound in E. rewrite length_drop in E. lia.
Qed.

Lemma startsWith_length (s search : string) (p : nat) :
  startsWith s search p = true -> String.length search <= String.length s - p.
Proof.
  unfold startsWith. intros H. apply prefix_length in H. now rewrite length_drop in H.
Qed.

Lemma nonempty_length (s : string) : nonempty s = true -> 1 <= String.length s.
Proof. destruct s; simpl; [discriminate | lia]. Qed.

(* ================================================================= *)
(** ** Unfolding the loops *)

Lemma padding_loop_eq (text : string) (fuel open_length : nat) (close_s : string)
      (st : ScanState) :
  padding_loop text fuel open_length close_s st =
  if accept text close_s 1 st then
    match fuel with
    | 0 => OutOfFuel
    | S fuel' =>
        padding_loop text fuel' open_length close_s
          (untilSymbol text close_s (set_pos st (pos st + (open_length + 1))))
    end
  else Ret st.
Proof. destruct fuel; reflexivity. Qed.

Lemma scan_eq regexp_exec self transformers (text : string) (inner fuel : nat)
      (st : ScanState) :
  scan regexp_exec self transformers text inner fuel st =
  if Nat.ltb (pos st) (String.length text) then
    match fuel with
    | 0 => OutOfFuel
    | S fuel' =>
        st' <- iteration regexp_exec self transformers text inner st;;
        scan regexp_exec self transformers text inner fuel' st'
    end
  else Ret st.
Proof. destruct fuel; reflexivity. Qed.

(* ================================================================= *)
(** ** The empty registry *)

Lemma scan_empty_registry regexp_exec self (text : string) (inner : nat) :
  forall fuel st,
    String.length text - pos st <= fuel ->
    pos st <= String.length text ->
    lastSlice st = pos st ->
    exists st',
      scan regexp_exec self [] text inner fuel st = Ret st' /\
      join (io st') = join (io st) ++ drop (pos st) text.
Proof.
  induction fuel as [| fuel IH]; intros st Hfuel Hpos Hlast; rewrite scan_eq;
    destruct (Nat.ltb_spec (pos st) (String.length text)) as [Hlt | Hge]; try lia.
  - exists st. split; [reflexivity |].
    rewrite drop_all by lia. now rewrite append_empty_r.
  - unfold iteration; simpl.
    destruct (IH (slice_to_io text (set_pos st (pos st + 1)))) as (st' & Hscan & Hjoin);
      simpl; try lia.
    exists st'. split; [exact Hscan |].
    rewrite Hjoin. simpl. rewrite join_snoc, append_assoc, Hlast.
    now rewrite slice_one_drop.
  - exists st. split; [reflexivity |].
    rewrite drop_all by lia. now rewrite append_empty_r.
Qed.

(** C9. With an empty registry [format] returns its input: for every
    string [t], any fuel above the length of [t] gives [format(t) = t]. *)
Theorem format_empty_registry regexp_exec (t : string) (fuel : nat) :
  String.length t < fuel -> format regexp_exec fuel [] t = Ret t.
Proof.
  intros Hfuel. destruct fuel as [| fuel]; [lia |]. simpl.
  destruct (scan_empty_registry regexp_exec (format regexp_exec fuel []) t fuel fuel initial)
    as (st' & -> & Hjoin); simpl; try lia.
  simpl in Hjoin. now rewrite Hjoin.
Qed.

Lemma format_empty_registry_witness :
  format RegExp.exec 19 [] "no delimiters here" = Ret "no delimiters here".
Proof. apply format_empty_registry. simpl. lia. Defined.


(* ================================================================= *)
(** ** Progress of the cursor *)

Section Progress.

Variable regexp_exec : string -> string -> outcome ExecResult.
Variable self : string -> outcome string.
Variable text : string.

Lemma untilSymbol_spec (symbol : string) (st : ScanState) :
  let st' := untilSymbol text symbol st in
  Nat.min (pos st) (String.length text) <= pos st' /\
  pos st' <= String.length text /\
  lastSlice st' = lastSlice st /\ io st' = io st.
Proof.
  unfold untilSymbol.
  destruct (indexOf text symbol (pos st)) as [i |] eqn:E; simpl.
  - apply indexOf_bounds in E. repeat split; try reflexivity; lia.
  - repeat split; try reflexivity; lia.
Qed.

(** With a non-empty closing delimiter the padding loop ends, and it
    never moves the cursor backwards. *)
Lemma padding_loop_terminates (open_length : nat) (close_s : string) :
  nonempty close_s = true ->
  forall fuel st,
    String.length text - pos st <= fuel ->
    exists st',
      padding_loop text fuel open_length close_s st = Ret st' /\
      pos st <= pos st' /\ lastSlice st' = lastSlice st /\ io st' = io st.
Proof.
  intros Hne. apply nonempty_length in Hne.
  induction fuel as [| fuel IH]; intros st Hfuel; rewrite padding_loop_eq;
    destruct (accept text close_s 1 st) eqn:Hacc;
    try (exists st; repeat split; (reflexivity || lia)).
  - apply startsWith_length in Hacc. exfalso. lia.
  - apply startsWith_length in Hacc.
    set (st1 := untilSymbol text close_s (set_pos st (pos st + (open_length + 1)))).
    pose proof (untilSymbol_spec close_s (set_pos st (pos st + (open_length + 1))))
      as (Hlo & Hhi & Hls & Hio).
    fold st1 in Hlo, Hhi, Hls, Hio. simpl in Hlo, Hls, Hio.
    destruct (IH st1) as (st' & Hrun & Hpos & Hls' & Hio'); [lia |].
    exists st'. repeat split; [exact Hrun | lia | congruence | congruence].
Qed.

Lemma attempt_progress (m : Transformer) (inner : nat) (st : ScanState) :
  non_recursive_literal m = true ->
  String.length text <= inner ->
  exists b st',
    attempt regexp_exec self text inner m st = Ret (b, st') /\
    pos st <= pos st' /\ (b = true -> pos st < pos st').
Proof.
  unfold non_recursive_literal, attempt, literal_attempt.
  destruct (recursive m); [discriminate |].
  destruct (open m) as [o | |]; try discriminate.
  destruct (close m) as [c | |]; try discriminate.
  simpl. intros Hne Hinner.
  apply andb_prop in Hne as [Ho Hc].
  destruct (accept text o 0 st) eqn:Hacc.
  2:{ exists false, st. repeat split; [lia | discriminate]. }
  apply startsWith_length in Hacc. rewrite Nat.add_0_r in Hacc.
  pose proof (nonempty_length _ Ho) as Hlo.
  pose proof (nonempty_length _ Hc) as Hlc.
  set (st1 := set_pos st (pos st + String.length o)).
  pose proof (untilSymbol_spec c st1) as (H2lo & H2hi & _ & _).
  set (st2 := untilSymbol text c st1) in *. simpl in H2lo.
  assert (exists st3,
             (if padding m then padding_loop text inner (String.length o) c st2
              else Ret st2) = Ret st3 /\ pos st2 <= pos st3) as (st3 & -> & H3).
  { destruct (padding m).
    - destruct (padding_loop_terminates (String.length o) c Hc inner st2)
        as (st3 & Hrun & Hpos & _); [lia |].
      now exists st3.
    - now exists st2. }
  simpl.
  destruct (validate m _).
  - destruct (accept text c 0 st3).
    + eexists true, _. split; [reflexivity |]. simpl. split; [lia | intros _; lia].
    + exists false, st3. repeat split; [lia | discriminate].
  - eexists false, _. split; [reflexivity |]. simpl. split; [lia | discriminate].
Qed.

Lemma some_matches_progress (inner : nat) :
  String.length text <= inner ->
  forall ms st,
    forallb non_recursive_literal ms = true ->
    exists b st',
      some_matches regexp_exec self text inner ms st = Ret (b, st') /\
      pos st <= pos st' /\ (b = true -> pos st < pos st').
Proof.
  intros Hinner. induction ms as [| m ms IH]; intros st Hall; simpl.
  - exists false, st. repeat split; [lia | discriminate].
  - simpl in Hall. apply andb_prop in Hall as [Hm Hms].
    destruct (attempt_progress m inner st Hm Hinner) as (b & st1 & -> & Hle & Hlt).
    simpl. destruct b.
    + exists true, st1. repeat split; [lia | intros _; now apply Hlt].
    + destruct (IH st1 Hms) as (b & st2 & -> & Hle2 & Hlt2).
      exists b, st2. repeat split; [lia | intros Hb; specialize (Hlt2 Hb); lia].
Qed.

Lemma forallb_filter {A} (p q : A -> bool) (l : list A) :
  forallb p l = true -> forallb p (filter q l) = true.
Proof.
  induction l as [| x l IH]; simpl; [reflexivity |].
  intros H. apply andb_prop in H as [Hx Hl].
  destruct (q x); simpl; [rewrite Hx |]; auto.
Qed.

Variable transformers : list Transformer.
Hypothesis all_plain : forallb non_recursive_literal transformers = true.

(** Every turn of the loop ends and moves the cursor forward. *)
Lemma iteration_progress (inner : nat) (st : ScanState) :
  String.length text <= inner ->
  exists st',
    iteration regexp_exec self transformers text inner st = Ret st' /\
    pos st < pos st'.
Proof.
  intros Hinner. unfold iteration.
  destruct (Nat.ltb 0 _).
  - destruct (some_matches_progress inner Hinner
                (filter (is_match text st) transformers) st)
      as (b & st1 & -> & Hle & Hlt); [now apply forallb_filter |].
    simpl. destruct b.
    + exists st1. split; [reflexivity | now apply Hlt].
    + eexists. split; [reflexivity |]. simpl. lia.
  - eexists. split; [reflexivity |]. simpl. lia.
Qed.

Lemma scan_terminates (inner : nat) :
  String.length text <= inner ->
  forall fuel st,
    String.length text - pos st <= fuel ->
    exists st', scan regexp_exec self transformers text inner fuel st = Ret st'.
Proof.
  intros Hinner. induction fuel as [| fuel IH]; intros st Hfuel; rewrite scan_eq;
    destruct (Nat.ltb_spec (pos st) (String.length text)) as [Hlt | Hge];
    try lia; try (now exists st).
  destruct (iteration_progress inner st Hinner) as (st1 & -> & Hpos). simpl.
  apply IH. lia.
Qed.

End Progress.

(** C10. With a registry of non-recursive transformers whose delimiters
    are non-empty literal strings, [format] terminates on every input:
    any fuel above the length of the text yields a result, and every
    turn of the scanning loop ends with the cursor strictly further. *)
Theorem format_terminates regexp_exec (transformers : list Transformer) (text : string)
        (fuel : nat) :
  forallb non_recursive_literal transformers = true ->
  String.length text < fuel ->
  (exists out, format regexp_exec fuel transformers text = Ret out) /\
  (forall self st,
      exists st',
        iteration regexp_exec self transformers text fuel st = Ret st' /\
        pos st < pos st').
Proof.
  intros Hall Hfuel. split.
  - destruct fuel as [| fuel]; [lia |]. simpl.
    destruct (scan_terminates regexp_exec (format regexp_exec fuel transformers) text
                transformers Hall fuel ltac:(lia) fuel initial) as (st' & ->);
      simpl; [lia |].
    now eexists.
  - intros self st. apply iteration_progress; [exact Hall | lia].
Qed.

Lemma format_terminates_witness :
  (exists out, format RegExp.exec 8 [code] "`a` `b" = Ret out) /\
  (forall self st,
      exists st',
        iteration RegExp.exec self [code] "`a` `b" 8 st = Ret st' /\
        pos st < pos st').
Proof. apply format_terminates; [reflexivity | simpl; lia]. Defined.

(* ================================================================= *)
(** ** What an attempt appends to the output *)

Section Output.

Variable regexp_exec : string -> string -> outcome ExecResult.
Variable self : string -> outcome string.
Variable text : string.

Lemma padding_loop_io (open_length : nat) (close_s : string) :
  forall fuel st st',
    padding_loop text fuel open_length close_s st = Ret st' ->
    lastSlice st' = lastSlice st /\ io st' = io st.
Proof.
  induction fuel as [| fuel IH]; intros st st'; rewrite padding_loop_eq;
    destruct (accept text close_s 1 st); try discriminate;
    try (intros [= <-]; now split).
  intros H. apply IH in H as [-> ->].
  pose proof (untilSymbol_spec text close_s (set_pos st (pos st + (open_length + 1))))
    as (_ & _ & Hls & Hio).
  now split.
Qed.

(** The literal branch either answers [false] and leaves the output
    alone, or answers [true] and appends one fragment: the rewrite of
    the span, passed through [format] again only when the transformer
    is recursive. *)
Lemma literal_attempt_inv (inner : nat) (m : Transformer) (st st' : ScanState)
      (b : bool) :
  literal_attempt self text inner m st = Ret (b, st') ->
  (b = false /\ io st' = io st) \/
  (b = true /\
   exists span parsed,
     rewritten self m span = Ret parsed /\
     io st' = (io st ++ [parsed])%list /\ lastSlice st' = pos st').
Proof.
  unfold literal_attempt, rewritten.
  destruct (accept text (text_of (open m)) 0 st); [| intros [= <- <-]; now left].
  destruct (length_of (open m)) as [open_length | | |]; simpl; try discriminate.
  match goal with
  | |- context [bind ?loop _] => destruct loop as [st3 | | |] eqn:Hloop
  end; simpl; try discriminate.
  assert (io st3 = io st) as Hio.
  { pose proof (untilSymbol_spec text (text_of (close m))
                  (set_pos st (pos st + open_length))) as (_ & _ & _ & Hu).
    destruct (padding m).
    - apply padding_loop_io in Hloop as [_ ->]. exact Hu.
    - injection Hloop as <-. exact Hu. }
  destruct (validate m _); [| intros [= <- <-]; now left].
  destruct (accept text (text_of (close m)) 0 st3); [| intros [= <- <-]; now left].
  match goal with
  | |- context [bind ?call _] => destruct call as [parsed | | |] eqn:Hcall
  end; simpl; try discriminate.
  destruct (length_of (close m)) as [close_length | | |]; simpl; try discriminate.
  intros [= <- <-]. right. split; [reflexivity |].
  eexists _, parsed. rewrite Hio. repeat split. exact Hcall.
Qed.

(** The [RegExp] branch always answers [false]; what it may append is
    the rewrite of the captured span, as returned by the callback. *)
Lemma regex_attempt_inv (m : Transformer) (st st' : ScanState) (b : bool) :
  regex_attempt regexp_exec text m st = Ret (b, st') ->
  b = false /\
  (io st' = io st \/ exists span, io st' = (io st ++ [transformer m span])%list).
Proof.
  unfold regex_attempt.
  destruct (regexp_exec _ text) as [[[raw [| [g1 |] gs]] |] | | |]; simpl;
    try discriminate; try (intros [= <- <-]; split; [reflexivity | now left]).
  destruct (nonempty g1 && validate m g1)%bool; intros [= <- <-]; simpl;
    (split; [reflexivity |]); [right; now eexists | now left].
Qed.

Lemma attempt_fired (inner : nat) (m : Transformer) (st st' : ScanState) :
  attempt regexp_exec self text inner m st = Ret (true, st') ->
  exists span parsed,
    rewritten self m span = Ret parsed /\
    io st' = (io st ++ [parsed])%list /\ lastSlice st' = pos st'.
Proof.
  unfold attempt. destruct (is_RegExp (open m) || is_RegExp (close m))%bool; intros H.
  - apply regex_attempt_inv in H as [[=] _].
  - apply literal_attempt_inv in H as [[[=] _] | [_ H]]. exact H.
Qed.

(** No attempt removes or rewrites what is already in the output. *)
Lemma attempt_extends (inner : nat) (m : Transformer) (st st' : ScanState) (b : bool) :
  attempt regexp_exec self text inner m st = Ret (b, st') ->
  exists more, io st' = (io st ++ more)%list.
Proof.
  unfold attempt. destruct (is_RegExp (open m) || is_RegExp (close m))%bool; intros H.
  - apply regex_attempt_inv in H as [_ [-> | [span ->]]].
    + exists []. now rewrite app_nil_r.
    + now eexists.
  - apply literal_attempt_inv in H as [[_ ->] | [_ (span & parsed & _ & -> & _)]].
    + exists []. now rewrite app_nil_r.
    + now eexists.
Qed.

Lemma some_matches_extends (inner : nat) :
  forall ms st st' b,
    some_matches regexp_exec self text inner ms st = Ret (b, st') ->
    exists more, io st' = (io st ++ more)%list.
Proof.
  induction ms as [| m ms IH]; intros st st' b; simpl.
  - intros [= _ <-]. exists []. now rewrite app_nil_r.
  - destruct (attempt regexp_exec self text inner m st) as [[b1 st1] | | |] eqn:Hm;
      simpl; try discriminate.
    apply attempt_extends in Hm as (more1 & Hm).
    destruct b1.
    + intros [= _ <-]. now exists more1.
    + intros H. apply IH in H as (more2 & ->). rewrite Hm.
      exists (more1 ++ more2)%list. now rewrite app_assoc.
Qed.

Variable transformers : list Transformer.

Lemma iteration_extends (inner : nat) (st st' : ScanState) :
  iteration regexp_exec self transformers text inner st = Ret st' ->
  exists more, io st' = (io st ++ more)%list.
Proof.
  unfold iteration. destruct (Nat.ltb 0 _).
  - destruct (some_matches _ _ _ _ _ _) as [[b st1] | | |] eqn:Hs; simpl;
      try discriminate.
    apply some_matches_extends in Hs as (more & Hs).
    destruct b; intros [= <-]; simpl.
    + now exists more.
    + rewrite Hs. eexists. now rewrite <- app_assoc.
  - intros [= <-]. simpl. now eexists.
Qed.

(** The output buffer only grows during a scan. *)
Lemma scan_extends (inner : nat) :
  forall fuel st st',
    scan regexp_exec self transformers text inner fuel st = Ret st' ->
    exists more, io st' = (io st ++ more)%list.
Proof.
  induction fuel as [| fuel IH]; intros st st'; rewrite scan_eq;
    destruct (Nat.ltb (pos st) _); try discriminate;
    try (intros [= <-]; exists []; now rewrite app_nil_r).
  destruct (iteration _ _ _ _ _ _) as [st1 | | |] eqn:Hi; simpl; try discriminate.
  apply iteration_extends in Hi as (more1 & Hi).
  intros H. apply IH in H as (more2 & ->). rewrite Hi.
  exists (more1 ++ more2)%list. now rewrite app_assoc.
Qed.

(** When the transformer is not recursive the nested [format] is not
    consulted. *)
Lemma attempt_ignores_self (self' : string -> outcome string) (inner : nat)
      (m : Transformer) (st : ScanState) :
  recursive m = false ->
  attempt regexp_exec self' text inner m st = attempt regexp_exec self text inner m st.
Proof.
  intros Hrec. unfold attempt, literal_attempt. now rewrite Hrec.
Qed.

End Output.

(* ================================================================= *)
(** ** Registration order *)

Section Priority.

Variable regexp_exec : string -> string -> outcome ExecResult.
Variable self : string -> outcome string.
Variable text : string.
Variable inner : nat.

(** [some] runs the callbacks of a prefix first, and stops there when
    one of them answers [true]. *)
Lemma some_matches_app (pre post : list Transformer) :
  forall st,
    some_matches regexp_exec self text inner (pre ++ post) st =
    (r <- some_matches regexp_exec self text inner pre st;;
     if fst r then Ret (true, snd r)
     else some_matches regexp_exec self text inner post (snd r)).
Proof.
  induction pre as [| m pre IH]; intros st; simpl; [reflexivity |].
  destruct (attempt regexp_exec self text inner m st) as [[b st1] | | |]; simpl;
    try reflexivity.
  destruct b; [reflexivity | apply IH].
Qed.

Lemma some_matches_first_success (pre post : list Transformer) (A : Transformer)
      (st st1 st2 : ScanState) :
  some_matches regexp_exec self text inner pre st = Ret (false, st1) ->
  attempt regexp_exec self text inner A st1 = Ret (true, st2) ->
  some_matches regexp_exec self text inner (pre ++ A :: post) st = Ret (true, st2).
Proof.
  intros Hpre HA. rewrite some_matches_app, Hpre. simpl. now rewrite HA.
Qed.

End Priority.

(** [filter] keeps the registration order of the candidates. *)
Lemma filter_two {A} (f : A -> bool) (l1 l2 l3 : list A) (a b : A) :
  f a = true -> f b = true ->
  filter f (l1 ++ a :: l2 ++ b :: l3) =
  (filter f l1 ++ a :: filter f l2 ++ b :: filter f l3)%list.
Proof.
  intros Ha Hb. rewrite filter_app. simpl. rewrite Ha, filter_app. simpl. now rewrite Hb.
Qed.

(** C2. Registration order is priority.  Let [A] be registered before
    [B], both with a literal opening delimiter found at the cursor.
    Then [A] comes before [B] among the candidates of this turn, and
    when the candidates tried before [A] have answered [false] and the
    attempt of [A] succeeds, the turn ends there: its result is the state
    left by [A], whose output buffer ends with the rewrite by [A] of the
    span, and [B] is not attempted.  For instance, with bold registered
    before italic, [**bold** and *italic*] becomes
    [<b>bold</b> and <i>italic</i>]. *)
Theorem registration_order_is_priority
        regexp_exec self (text : string) (inner : nat)
        (l1 l2 l3 : list Transformer) (A B : Transformer) (oa ob : string)
        (st st1 st2 : ScanState) :
  open A = PString oa -> open B = PString ob ->
  is_match text st A = true -> is_match text st B = true ->
  some_matches regexp_exec self text inner (filter (is_match text st) l1) st
    = Ret (false, st1) ->
  attempt regexp_exec self text inner A st1 = Ret (true, st2) ->
  let registry := (l1 ++ A :: l2 ++ B :: l3)%list in
  filter (is_match text st) registry =
    (filter (is_match text st) l1 ++
     A :: filter (is_match text st) l2 ++ B :: filter (is_match text st) l3)%list /\
  iteration regexp_exec self registry text inner st = Ret st2 /\
  (exists span parsed,
      rewritten self A span = Ret parsed /\ io st2 = (io st1 ++ [parsed])%list) /\
  (forall fuel, 15 <= fuel ->
     format regexp_exec fuel [bold; italic] "**bold** and *italic*"
       = Ret "<b>bold</b> and <i>italic</i>").
Proof.
  intros _ _ HA HB Hpre Hfire registry.
  assert (filter (is_match text st) registry =
            (filter (is_match text st) l1 ++
             A :: filter (is_match text st) l2 ++ B :: filter (is_match text st) l3)%list)
    as Hfilter by now apply filter_two.
  repeat split.
  - exact Hfilter.
  - unfold iteration. rewrite Hfilter.
    rewrite (some_matches_first_success _ _ _ _ _ _ A st st1 st2 Hpre Hfire).
    destruct (filter (is_match text st) l1); reflexivity.
  - apply attempt_fired in Hfire as (span & parsed & Hre & Hio & _). now exists span, parsed.
  - intros fuel Hfuel. apply format_more_fuel with (fuel := 15); [| exact Hfuel].
    vm_compute. reflexivity.
Qed.

Lemma registration_order_is_priority_witness :
  filter (is_match "**bold** and *italic*" initial) [bold; italic] = [bold; italic] /\
  iteration RegExp.exec (format RegExp.exec 14 [bold; italic]) [bold; italic]
    "**bold** and *italic*" 14 initial
    = Ret {| pos := 8; lastSlice := 8; io := ["<b>bold</b>"] |} /\
  (exists span parsed,
      rewritten (format RegExp.exec 14 [bold; italic]) bold span = Ret parsed /\
      ["<b>bold</b>"] = (io initial ++ [parsed])%list) /\
  (forall fuel, 15 <= fuel ->
     format RegExp.exec fuel [bold; italic] "**bold** and *italic*"
       = Ret "<b>bold</b> and <i>italic</i>").
Proof.
  apply (registration_order_is_priority RegExp.exec (format RegExp.exec 14 [bold; italic])
           "**bold** and *italic*" 14 [] [] [] bold italic "**" "*" initial initial
           {| pos := 8; lastSlice := 8; io := ["<b>bold</b>"] |}); reflexivity.
Defined.

(* ================================================================= *)
(** ** Non-recursive transformers *)

(** C3. The rewrite of a transformer with [recursive = false] goes to
    the output verbatim and is never scanned again: the attempt does not
    consult the nested [format]; whatever it appends is the string
    returned by the rewrite callback; and once it has fired that string
    stays, unchanged, in the result of the scan.  For instance, with a
    non-recursive code transformer registered before italic, the text
    between backquotes [*raw*] comes out as [<code>*raw*</code>]. *)
Theorem non_recursive_output_is_verbatim
        regexp_exec self (transformers : list Transformer) (text : string) (inner : nat)
        (m : Transformer) (st st' : ScanState) (b : bool) :
  recursive m = false ->
  attempt regexp_exec self text inner m st = Ret (b, st') ->
  (forall self', attempt regexp_exec self' text inner m st = Ret (b, st')) /\
  (io st' = io st \/ exists span, io st' = (io st ++ [transformer m span])%list) /\
  (b = true ->
   exists span,
     io st' = (io st ++ [transformer m span])%list /\
     forall fuel st_end,
       scan regexp_exec self transformers text inner fuel st' = Ret st_end ->
       exists rest, join (io st_end) = join (io st) ++ transformer m span ++ rest) /\
  (forall fuel, 9 <= fuel ->
     format regexp_exec fuel [code; italic] "`*raw*`" = Ret "<code>*raw*</code>").
Proof.
  intros Hrec Hrun.
  assert (b = true ->
          exists span, io st' = (io st ++ [transformer m span])%list) as Hfired.
  { intros ->. apply attempt_fired in Hrun as (span & parsed & Hre & Hio & _).
    unfold rewritten in Hre. rewrite Hrec in Hre. injection Hre as <-. now exists span. }
  repeat split.
  - intros self'. now rewrite (attempt_ignores_self regexp_exec self text self').
  - destruct b; [right; now apply Hfired |].
    revert Hrun. unfold attempt.
    destruct (is_RegExp (open m) || is_RegExp (close m))%bool; intros Hrun.
    + now apply regex_attempt_inv in Hrun as [_ Hio].
    + apply literal_attempt_inv in Hrun as [[_ Hio] | [[=] _]]. now left.
  - intros Hb. destruct (Hfired Hb) as (span & Hio). exists span. split; [exact Hio |].
    intros fuel st_end Hscan. apply scan_extends in Hscan as (more & ->).
    exists (join more). rewrite Hio, !join_app. simpl.
    now rewrite append_empty_r, append_assoc.
  - intros fuel Hfuel. apply format_more_fuel with (fuel := 9); [| exact Hfuel].
    vm_compute. reflexivity.
Qed.

Lemma non_recursive_output_is_verbatim_witness :
  (forall self',
      attempt RegExp.exec self' "`*raw*`" 8 code initial
        = Ret (true, {| pos := 7; lastSlice := 7; io := ["<code>*raw*</code>"] |})) /\
  (["<code>*raw*</code>"] = io initial \/
   exists span, ["<code>*raw*</code>"] = (io initial ++ [transformer code span])%list) /\
  (true = true ->
   exists span,
     ["<code>*raw*</code>"] = (io initial ++ [transformer code span])%list /\
     forall fuel st_end,
       scan RegExp.exec (format RegExp.exec 8 [code; italic]) [code; italic] "`*raw*`" 8 fuel
            {| pos := 7; lastSlice := 7; io := ["<code>*raw*</code>"] |} = Ret st_end ->
       exists rest,
         join (io st_end) = join (io initial) ++ transformer code span ++ rest) /\
  (forall fuel, 9 <= fuel ->
     format RegExp.exec fuel [code; italic] "`*raw*`" = Ret "<code>*raw*</code>").
Proof.
  apply (non_recursive_output_is_verbatim RegExp.exec (format RegExp.exec 8 [code; italic])
           [code; italic] "`*raw*`" 8 code initial
           {| pos := 7; lastSlice := 7; io := ["<code>*raw*</code>"] |} true);
    reflexivity.
Defined.

(* ================================================================= *)
(** ** Fuel of [formatRegex] *)

Lemma regex_scan_mono regexp_exec (text : string) (transformers : list Transformer) :
  forall fuel fuel' st, fuel <= fuel' ->
    le_outcome (regex_scan regexp_exec text fuel transformers st)
               (regex_scan regexp_exec text fuel' transformers st).
Proof.
  induction fuel as [| fuel IH]; intros fuel' st Hle.
  - destruct fuel'; simpl; destruct (Nat.ltb (rx_pos st) _); (now left) || (now right).
  - destruct fuel' as [| fuel']; [lia |].
    simpl. destruct (Nat.ltb (rx_pos st) _); [| apply le_outcome_refl].
    apply le_outcome_bind; [apply le_outcome_refl |].
    intros st'. apply IH. lia.
Qed.

Lemma formatRegex_more_fuel regexp_exec (transformers : list Transformer)
      (text out : string) (fuel fuel' : nat) :
  formatRegex regexp_exec fuel transformers text = Ret out -> fuel <= fuel' ->
  formatRegex regexp_exec fuel' transformers text = Ret out.
Proof.
  unfold formatRegex. intros H Hle.
  eapply le_outcome_Ret; [| exact H].
  apply le_outcome_bind; [now apply regex_scan_mono | intros st; apply le_outcome_refl].
Qed.

(* ================================================================= *)
(** ** Failed attempts and the cursor *)

Lemma set_pos_set_pos (st : ScanState) (p q : nat) : set_pos (set_pos st p) q = set_pos st q.
Proof. reflexivity. Qed.

Lemma startsWith_past_end (text search : string) (p : nat) :
  nonempty search = true -> String.length text <= p -> startsWith text search p = false.
Proof.
  intros Hne Hp. unfold startsWith. rewrite drop_all by exact Hp.
  destruct search; [discriminate | reflexivity].
Qed.

(** An attempt whose closing delimiter is nowhere after the opening one
    answers [false] and leaves the cursor at the end of the text. *)
Lemma unterminated_attempt regexp_exec self (text : string) (inner : nat)
      (m : Transformer) (o c : string) (st : ScanState) :
  open m = PString o -> close m = PString c -> nonempty c = true ->
  accept text o 0 st = true ->
  indexOf text c (pos st + String.length o) = None ->
  validate m (slice text (pos st + String.length o) (String.length text)) = true ->
  attempt regexp_exec self text inner m st = Ret (false, set_pos st (String.length text)).
Proof.
  intros Ho Hc Hne Hacc Hidx Hval.
  unfold attempt, literal_attempt. rewrite Ho, Hc. simpl. rewrite Hacc. simpl.
  unfold untilSymbol. simpl. rewrite Hidx, set_pos_set_pos.
  assert (forall k, accept text c k (set_pos st (String.length text)) = false) as Hend.
  { intros k. apply startsWith_past_end; [exact Hne | simpl; lia]. }
  assert ((if padding m
           then padding_loop text inner (String.length o) c (set_pos st (String.length text))
           else Ret (set_pos st (String.length text)))
          = Ret (set_pos st (String.length text))) as ->.
  { destruct (padding m); [| reflexivity]. now rewrite padding_loop_eq, Hend. }
  simpl. now rewrite Hval, Hend.
Qed.

(** An attempt vetoed by [validate] answers [false] and leaves the cursor
    just after the opening delimiter. *)
Lemma vetoed_attempt regexp_exec self (text : string) (inner : nat)
      (m : Transformer) (o c : string) (st st' : ScanState) (b : bool) :
  open m = PString o -> close m = PString c ->
  accept text o 0 st = true ->
  (forall span, validate m span = false) ->
  attempt regexp_exec self text inner m st = Ret (b, st') ->
  b = false /\ st' = set_pos st (pos st + String.length o).
Proof.
  intros Ho Hc Hacc Hval.
  unfold attempt, literal_attempt. rewrite Ho, Hc. simpl. rewrite Hacc. simpl.
  match goal with
  | |- context [bind ?loop _] => destruct loop as [st3 | | |] eqn:Hloop
  end; simpl; try discriminate.
  rewrite Hval. intros [= <- <-]. split; [reflexivity |].
  assert (lastSlice st3 = lastSlice st /\ io st3 = io st) as [Hls Hio].
  { pose proof (untilSymbol_spec text c (set_pos st (pos st + String.length o)))
      as (_ & _ & Hls & Hio).
    destruct (padding m).
    - apply padding_loop_io in Hloop as [-> ->]. now split.
    - injection Hloop as <-. now split. }
  unfold set_pos. simpl. now rewrite Hls, Hio.
Qed.

(* ================================================================= *)
(** ** The padding rule on a doubled delimiter *)

(** C1. What [format] does on [*a**b*] with the italic transformer
    (symbol [*], padding on): the padding loop steps over the doubled
    delimiter and stops at the last [*], so the attempt at the first
    [*] succeeds with the span [a**b] and the rewrite callback is applied
    to it.  The result is the rewrite of [a**b] (scanned again when the
    transformer is recursive), and for any callback [f] of a
    non-recursive transformer it is [f "a**b"]. *)
Theorem padding_steps_over_doubled_delimiter regexp_exec (fuel : nat) :
  12 <= fuel ->
  (forall self,
      attempt regexp_exec self "*a**b*" fuel italic initial =
      (parsed <- self (wrap "i" "a**b");;
       Ret (true, {| pos := 6; lastSlice := 6; io := [parsed] |}))) /\
  format regexp_exec fuel [italic] "*a**b*" = Ret "<i>a<i></i>b</i>" /\
  (forall f,
      format regexp_exec fuel [assign_defaults (verbatim_options "italic" "*" f)] "*a**b*"
      = Ret (f "a**b")).
Proof.
  intros Hfuel. repeat split.
  - intros self. destruct fuel as [| [| k]]; try lia; cbn; reflexivity.
  - apply format_more_fuel with (fuel := 12); [| exact Hfuel]. vm_compute. reflexivity.
  - intros f. apply format_more_fuel with (fuel := 2); [| lia].
    cbn. now rewrite append_empty_r.
Qed.

Lemma padding_steps_over_doubled_delimiter_witness :
  (forall self,
      attempt RegExp.exec self "*a**b*" 12 italic initial =
      (parsed <- self (wrap "i" "a**b");;
       Ret (true, {| pos := 6; lastSlice := 6; io := [parsed] |}))) /\
  format RegExp.exec 12 [italic] "*a**b*" = Ret "<i>a<i></i>b</i>" /\
  (forall f,
      format RegExp.exec 12 [assign_defaults (verbatim_options "italic" "*" f)] "*a**b*"
      = Ret (f "a**b")).
Proof. apply (padding_steps_over_doubled_delimiter RegExp.exec 12). lia. Defined.

(* ================================================================= *)
(** ** Failed attempts in whole scans *)

(** C4. What [format] does after an unterminated opening delimiter: the
    attempt answers [false] with the cursor at the end of the text, so
    the turn flushes the whole rest of the input and the scan is over.
    [*unterminated] comes out unchanged; in [*a `b`] the code span after
    the unterminated [*] is not transformed, although the code
    transformer alone transforms it. *)
Theorem unterminated_attempt_ends_scan regexp_exec (fuel : nat) :
  8 <= fuel ->
  format regexp_exec fuel [italic] "*unterminated" = Ret "*unterminated" /\
  (forall self,
      attempt regexp_exec self "*a `b`" fuel italic initial
      = Ret (false, {| pos := 6; lastSlice := 0; io := [] |})) /\
  (forall self,
      iteration regexp_exec self [italic; code] "*a `b`" fuel initial
      = Ret {| pos := 7; lastSlice := 7; io := ["*a `b`"] |}) /\
  format regexp_exec fuel [italic; code] "*a `b`" = Ret "*a `b`" /\
  format regexp_exec fuel [code] "*a `b`" = Ret "*a <code>b</code>".
Proof.
  intros Hfuel. repeat split.
  - apply format_more_fuel with (fuel := 8); [| exact Hfuel]. vm_compute. reflexivity.
  - intros self.
    apply (unterminated_attempt regexp_exec self "*a `b`" fuel italic "*" "*" initial);
      reflexivity.
  - intros self. unfold iteration. simpl filter. cbv iota beta. simpl some_matches.
    rewrite (unterminated_attempt regexp_exec self "*a `b`" fuel italic "*" "*" initial);
      reflexivity.
  - apply format_more_fuel with (fuel := 8); [| exact Hfuel]. vm_compute. reflexivity.
  - apply format_more_fuel with (fuel := 8); [| exact Hfuel]. vm_compute. reflexivity.
Qed.

Lemma unterminated_attempt_ends_scan_witness :
  format RegExp.exec 8 [italic] "*unterminated" = Ret "*unterminated" /\
  (forall self,
      attempt RegExp.exec self "*a `b`" 8 italic initial
      = Ret (false, {| pos := 6; lastSlice := 0; io := [] |})) /\
  (forall self,
      iteration RegExp.exec self [italic; code] "*a `b`" 8 initial
      = Ret {| pos := 7; lastSlice := 7; io := ["*a `b`"] |}) /\
  format RegExp.exec 8 [italic; code] "*a `b`" = Ret "*a `b`" /\
  format RegExp.exec 8 [code] "*a `b`" = Ret "*a <code>b</code>".
Proof. apply (unterminated_attempt_ends_scan RegExp.exec 8). lia. Defined.

(** C5. What [format] does after a [validate] veto: the cursor is left
    just after the opening delimiter, not where it was found, and the
    later candidates are tried from there.  With an italic transformer
    that refuses empty spans registered before bold, [**x**] stays as it
    is although bold alone transforms it; with a second transformer on
    [*] registered after it, [**x*] loses its first [*]. *)
Theorem vetoed_attempt_moves_cursor regexp_exec (fuel : nat) :
  12 <= fuel ->
  (forall self,
      attempt regexp_exec self "**x**" fuel italic_nonempty initial
      = Ret (false, {| pos := 1; lastSlice := 0; io := [] |})) /\
  format regexp_exec fuel [italic_nonempty; bold] "**x**" = Ret "**x**" /\
  format regexp_exec fuel [bold] "**x**" = Ret "<b>x</b>" /\
  format regexp_exec fuel [italic_nonempty; em] "**x*" = Ret "<em>x</em>" /\
  format regexp_exec fuel [em] "**x*" = Ret "<em></em>x*".
Proof.
  intros Hfuel. repeat split;
    try (apply format_more_fuel with (fuel := 12); [| exact Hfuel]; vm_compute; reflexivity).
  intros self. destruct fuel as [| [| k]]; try lia; cbn; reflexivity.
Qed.

Lemma vetoed_attempt_moves_cursor_witness :
  (forall self,
      attempt RegExp.exec self "**x**" 12 italic_nonempty initial
      = Ret (false, {| pos := 1; lastSlice := 0; io := [] |})) /\
  format RegExp.exec 12 [italic_nonempty; bold] "**x**" = Ret "**x**" /\
  format RegExp.exec 12 [bold] "**x**" = Ret "<b>x</b>" /\
  format RegExp.exec 12 [italic_nonempty; em] "**x*" = Ret "<em>x</em>" /\
  format RegExp.exec 12 [em] "**x*" = Ret "<em></em>x*".
Proof. apply (vetoed_attempt_moves_cursor RegExp.exec 12). lia. Defined.

(* ================================================================= *)
(** ** The pattern path *)

(** C6. [formatRegex] against [format] on the same input, with the
    reference engine.  [formatRegex] does not scan a rewritten fragment
    again: on a code span inside an italic span it leaves the
    backquotes, where [format] transforms them.  On
    [**bold** and *italic*] with bold before italic it returns the input
    unchanged, where [format] transforms both spans. *)
Theorem formatRegex_differs_from_format (fuel : nat) :
  23 <= fuel ->
  format RegExp.exec fuel [italic; code] "*`x`*" = Ret "<i><code>x</code></i>" /\
  formatRegex RegExp.exec fuel [italic; code] "*`x`*" = Ret "<i>`x`</i>" /\
  format RegExp.exec fuel [bold; italic] "**bold** and *italic*"
    = Ret "<b>bold</b> and <i>italic</i>" /\
  formatRegex RegExp.exec fuel [bold; italic] "**bold** and *italic*"
    = Ret "**bold** and *italic*".
Proof.
  intros Hfuel. repeat split;
    (apply format_more_fuel with (fuel := 23) || apply formatRegex_more_fuel with (fuel := 23));
    try exact Hfuel; vm_compute; reflexivity.
Qed.

Lemma formatRegex_differs_from_format_witness :
  format RegExp.exec 23 [italic; code] "*`x`*" = Ret "<i><code>x</code></i>" /\
  formatRegex RegExp.exec 23 [italic; code] "*`x`*" = Ret "<i>`x`</i>" /\
  format RegExp.exec 23 [bold; italic] "**bold** and *italic*"
    = Ret "<b>bold</b> and <i>italic</i>" /\
  formatRegex RegExp.exec 23 [bold; italic] "**bold** and *italic*"
    = Ret "**bold** and *italic*".
Proof. apply (formatRegex_differs_from_format 23). lia. Defined.

(** C7. What [normalizePattern] does to a literal delimiter: it puts one
    backslash before the first character and leaves the others as they
    are.  For [**] it gives a pattern that reads as any number of [*],
    which matches the empty string, so that a bold transformer on [**]
    fires in [formatRegex] on a text without any [*]; escaping every
    character, as [escape_each_char] does, gives another source. *)
Theorem normalizePattern_escapes_first_character_only
        (c : ascii) (s : string) (fuel : nat) :
  is_line_terminator c = false ->
  1 <= fuel ->
  normalizePattern (PString (String c s)) = Ret (String "\" (String c s)) /\
  normalizePattern (PString "**") = Ret "\**" /\
  escape_each_char "**" = "\*\*" /\
  normalizePattern (PString "a+b") = Ret "\a+b" /\
  escape_each_char "a+b" = "\a\+\b" /\
  RegExp.exec "\**" "" = Ret (Some ("", [])) /\
  RegExp.exec "\*\*" "" = Ret None /\
  RegExp.exec "^\**(.+?)\**" "x" = Ret (Some ("x", [Some "x"])) /\
  formatRegex RegExp.exec fuel [bold_unpadded] "x" = Ret "<b>x</b>".
Proof.
  intros Hc Hfuel. repeat split; try reflexivity.
  - simpl. now rewrite Hc.
  - apply formatRegex_more_fuel with (fuel := 1); [| exact Hfuel]. vm_compute. reflexivity.
Qed.

Lemma normalizePattern_escapes_first_character_only_witness :
  normalizePattern (PString "*+") = Ret "\*+" /\
  normalizePattern (PString "**") = Ret "\**" /\
  escape_each_char "**" = "\*\*" /\
  normalizePattern (PString "a+b") = Ret "\a+b" /\
  escape_each_char "a+b" = "\a\+\b" /\
  RegExp.exec "\**" "" = Ret (Some ("", [])) /\
  RegExp.exec "\*\*" "" = Ret None /\
  RegExp.exec "^\**(.+?)\**" "x" = Ret (Some ("x", [Some "x"])) /\
  formatRegex RegExp.exec 1 [bold_unpadded] "x" = Ret "<b>x</b>".
Proof.
  apply (normalizePattern_escapes_first_character_only "*" "+" 1); [reflexivity | lia].
Defined.

(* ================================================================= *)
(** ** Registration *)

(** C8, as the claim states it, fails: options with a callback but with
    neither [symbol] nor [open] are registered without any error, as a
    transformer whose delimiters are both [undefined]. *)
Lemma addTransformer_accepts_missing_delimiters :
  o_symbol bare_options = None /\ o_open bare_options = None /\
  addTransformer [] bare_options
  = Ret [ {| name := "bare"; open := PUndefined; close := PUndefined;
             recursive := true; padding := true;
             validate := fun _ => true; transformer := wrap "i" |} ] /\
  ~ (exists e, addTransformer [] bare_options = Throw e).
Proof.
  repeat split. intros [e H]. discriminate H.
Qed.

(** C8, amended. [addTransformer] checks nothing and never throws: for
    every options value it returns normally with the registry extended
    at its end by exactly one transformer, the earlier entries kept in
    order.  That transformer carries the callback of the options; its
    flags default to [true] and its [validate] to accepting everything;
    a [symbol] (a non-empty string or a [RegExp]) given alone sets both
    delimiters, an [open] given alone sets both delimiters, and with
    neither of them both delimiters are [undefined]. *)
Theorem addTransformer_never_throws (transformers : list Transformer)
        (params : TransformerOptions) :
  exists t,
    addTransformer transformers params = Ret (transformers ++ [t])%list /\
    transformer t = o_transformer params /\
    recursive t = override true (o_recursive params) /\
    padding t = override true (o_padding params) /\
    (o_validate params = None -> forall span, validate t span = true) /\
    (forall sym, o_symbol params = Some sym -> truthy sym = true ->
                 o_open params = None -> o_close params = None ->
                 open t = sym /\ close t = sym) /\
    (forall o, o_symbol params = None -> o_open params = Some o ->
               o_close params = None -> open t = o /\ close t = o) /\
    (o_symbol params = None -> o_open params = None -> o_close params = None ->
     open t = PUndefined /\ close t = PUndefined).
Proof.
  exists (assign_defaults params). unfold assign_defaults; simpl.
  do 4 (split; [reflexivity |]).
  split; [| split; [| split]].
  - intros Hval span. now rewrite Hval.
  - intros sym Hsym Htruthy Hopen Hclose. rewrite Hsym, Hopen, Hclose. simpl.
    split; [reflexivity | now rewrite Htruthy].
  - intros o Hsym Hopen Hclose. rewrite Hsym, Hopen, Hclose. now split.
  - intros Hsym Hopen Hclose. rewrite Hsym, Hopen, Hclose. now split.
Qed.

Lemma addTransformer_never_throws_witness :
  (exists t,
      addTransformer [bold] (symbol_options "italic" "*" (wrap "i")) = Ret [bold; t] /\
      open t = PString "*" /\ close t = PString "*" /\
      recursive t = true /\ padding t = true /\ validate t "a**b" = true) /\
  (exists t,
      addTransformer [bold] bare_options = Ret [bold; t] /\
      open t = PUndefined /\ close t = PUndefined).
Proof.
  split.
  - destruct (addTransformer_never_throws [bold] (symbol_options "italic" "*" (wrap "i")))
      as (t & Hadd & _ & Hrec & Hpad & Hval & Hsym & _ & _).
    destruct (Hsym (PString "*")) as [Ho Hc]; try reflexivity.
    exists t. repeat split; try assumption. now apply Hval.
  - destruct (addTransformer_never_throws [bold] bare_options)
      as (t & Hadd & _ & _ & _ & _ & _ & _ & Hnone).
    destruct Hnone as [Ho Hc]; try reflexivity.
    exists t. repeat split; assumption.
Defined.

(* ================================================================= *)
(** ** More facts about the string primitives *)

Lemma length_app (a b : string) : String.length (a ++ b) = String.length a + String.length b.
Proof. induction a; simpl; congruence. Qed.

Lemma take_all (s : string) : forall n, String.length s <= n -> take n s = s.
Proof.
  induction s as [| c s IH]; intros [| n] H; simpl in *; try reflexivity; try lia.
  f_equal. apply IH. lia.
Qed.

Lemma take_add (a k : nat) : forall s, take (a + k) s = take a s ++ take k (drop a s).
Proof.
  induction a as [| a IH]; intros [| c s]; simpl; auto.
  - now destruct k.
  - now rewrite IH.
Qed.

(** What was committed and what is pending make up the prefix read so
    far. *)
Lemma take_slice (s : string) (a b : nat) : a <= b -> take a s ++ slice s a b = take b s.
Proof.
  intros H. unfold slice. replace b with (a + (b - a)) at 2 by lia.
  now rewrite take_add.
Qed.

Lemma prefix_app (a b : string) : prefix a (a ++ b) = true.
Proof.
  induction a as [| x a IH]; simpl; [now destruct b |].
  destruct (ascii_dec x x); [exact IH | congruence].
Qed.

Lemma prefix_refl (a : string) : prefix a a = true.
Proof. rewrite <- (append_empty_r a) at 2. apply prefix_app. Qed.

Lemma drop_app_length (a b : string) : drop (String.length a) (a ++ b) = b.
Proof. induction a; simpl; auto. Qed.

Lemma take_app_length (a b : string) : take (String.length a) (a ++ b) = a.
Proof. induction a; simpl; congruence. Qed.

Lemma drop_drop (a b : nat) (s : string) : drop b (drop a s) = drop (a + b) s.
Proof. now rewrite drop_add. Qed.

Lemma find_some_spec (search : string) :
  forall s k, find search s = Some k ->
    prefix search (drop k s) = true /\
    forall j, j < k -> prefix search (drop j s) = false.
Proof.
  induction s as [| c s IH]; intros k; rewrite find_eq;
    destruct (prefix search _) eqn:E.
  - intros [= <-]. split; [exact E | intros j Hj; lia].
  - discriminate.
  - intros [= <-]. split; [exact E | intros j Hj; lia].
  - destruct (find search s) as [i |]; simpl; [| discriminate].
    intros [= <-]. destruct (IH i eq_refl) as [Hi Hlt]. split; [exact Hi |].
    intros [| j] Hj; [exact E | simpl; apply Hlt; lia].
Qed.

Lemma find_none_spec (search : string) :
  forall s, find search s = None -> forall j, prefix search (drop j s) = false.
Proof.
  induction s as [| c s IH]; rewrite find_eq; destruct (prefix search _) eqn:E;
    try discriminate.
  - intros _ j. now rewrite drop_empty.
  - destruct (find search s) as [i |] eqn:F; simpl; [discriminate |].
    intros _ [| j]; [exact E | simpl; now apply IH].
Qed.

(** [indexOf] answers the first occurrence at or after the position. *)
Lemma indexOf_some_spec (s search : string) (p i : nat) :
  indexOf s search p = Some i -> p <= String.length s ->
  p <= i /\ startsWith s search i = true /\
  forall q, p <= q -> q < i -> startsWith s search q = false.
Proof.
  unfold indexOf, startsWith.
  destruct (find search (drop p s)) as [k |] eqn:E; simpl; [| discriminate].
  intros [= <-] Hp. apply find_some_spec in E as [Hk Hlt].
  rewrite Nat.min_l by exact Hp. rewrite drop_drop in Hk.
  split; [lia |]. split; [exact Hk |].
  intros q Hq Hqi. replace q with (p + (q - p)) by lia.
  rewrite <- drop_drop. apply Hlt. lia.
Qed.

Lemma indexOf_none_spec (s search : string) (p : nat) :
  indexOf s search p = None ->
  forall q, p <= q -> startsWith s search q = false.
Proof.
  unfold indexOf, startsWith.
  destruct (find search (drop p s)) as [k |] eqn:E; simpl; [discriminate |].
  intros _ q Hq. replace q with (p + (q - p)) by lia.
  rewrite <- drop_drop. now apply find_none_spec.
Qed.

Lemma indexOf_here (s search : string) (p : nat) :
  p <= String.length s ->
  match indexOf s search p with
  | Some i => Nat.eqb i p
  | None => false
  end = startsWith s search p.
Proof.
  intros Hp. unfold indexOf, startsWith. rewrite Nat.min_l by exact Hp.
  rewrite find_eq. destruct (prefix search (drop p s)) eqn:E; simpl.
  - rewrite Nat.add_0_r. apply Nat.eqb_refl.
  - destruct (drop p s) as [| c r]; [reflexivity |].
    destruct (find search r) as [k |]; simpl; [| reflexivity].
    apply Nat.eqb_neq. lia.
Qed.

(** For a literal opening delimiter the filter of [format] asks whether
    the delimiter starts at the cursor. *)
Lemma is_match_startsWith (text : string) (st : ScanState) (t : Transformer) (o : string) :
  open t = PString o -> pos st <= String.length text ->
  is_match text st t = startsWith text o (pos st).
Proof.
  intros Ho Hp. unfold is_match. rewrite Ho. now apply indexOf_here.
Qed.

(* ================================================================= *)
(** ** The two ways a literal attempt can end *)

Section Attempt.

Variable regexp_exec : string -> string -> outcome ExecResult.
Variable self : string -> outcome string.
Variable text : string.

(** On leaving, the padding loop stands where the closing delimiter does
    not start one character further; it has not moved backwards nor
    past the end, and it has not touched the output. *)
Lemma padding_loop_ret (open_length : nat) (close_s : string) :
  nonempty close_s = true ->
  forall fuel st st',
    padding_loop text fuel open_length close_s st = Ret st' ->
    accept text close_s 1 st' = false /\
    pos st <= pos st' /\ (pos st <= String.length text -> pos st' <= String.length text) /\
    lastSlice st' = lastSlice st /\ io st' = io st.
Proof.
  intros Hne. apply nonempty_length in Hne.
  induction fuel as [| fuel IH]; intros st st'; rewrite padding_loop_eq;
    destruct (accept text close_s 1 st) eqn:Hacc; try discriminate;
    try (intros [= <-]; repeat split; (assumption || lia)).
  intros Hrun. apply startsWith_length in Hacc.
  pose proof (untilSymbol_spec text close_s (set_pos st (pos st + (open_length + 1))))
    as (Hlo & Hhi & Hls & Hio).
  apply IH in Hrun as (Hexit & Hpos & Hlen & Hls' & Hio'). simpl in Hlo, Hls, Hio.
  repeat split; [exact Hexit | lia | intros _; apply Hlen; exact Hhi | congruence | congruence].
Qed.

Variable inner : nat.
Variable m : Transformer.
Variables o c : string.
Hypothesis open_literal : open m = PString o.
Hypothesis close_literal : close m = PString c.
Hypothesis close_nonempty : nonempty c = true.

(** A literal attempt that returns either answers [false], leaving the
    output and the emit boundary alone and the cursor not before where
    it was, or it has found a span as in [fires_at] and answers with the
    rewrite of that span. *)
Lemma literal_attempt_cases (st : ScanState) (r : outcome (bool * ScanState)) :
  pos st <= String.length text ->
  attempt regexp_exec self text inner m st = r ->
  (r = OutOfFuel /\ inner < String.length text) \/
  (exists st',
      r = Ret (false, st') /\ io st' = io st /\ lastSlice st' = lastSlice st /\
      pos st <= pos st' /\ pos st' <= String.length text) \/
  (exists to,
      fires_at text m o c st to /\
      r = (parsed <- rewritten self m (slice text (pos st + String.length o) to);;
           Ret (true, fired_state c st to parsed))).
Proof.
  intros Hpos <-. unfold attempt, literal_attempt, rewritten.
  rewrite open_literal, close_literal. simpl.
  destruct (accept text o 0 st) eqn:Hacc.
  2:{ right; left. exists st. repeat split; (reflexivity || lia). }
  unfold accept in Hacc. rewrite Nat.add_0_r in Hacc.
  pose proof (startsWith_length _ _ _ Hacc) as Hlen.
  set (st1 := set_pos st (pos st + String.length o)).
  pose proof (untilSymbol_spec text c st1) as (H2lo & H2hi & H2ls & H2io).
  assert (padding m = false ->
          forall q, pos st + String.length o <= q -> q < pos (untilSymbol text c st1) ->
                    startsWith text c q = false) as Hfirst.
  { intros _ q Hq Hlt. unfold untilSymbol in Hlt.
    destruct (indexOf text c (pos st1)) as [i |] eqn:Hidx; simpl in Hlt.
    - apply indexOf_some_spec in Hidx as (_ & _ & Hbefore); [| simpl; lia].
      apply Hbefore; simpl; lia.
    - apply (indexOf_none_spec _ _ _ Hidx). simpl. lia. }
  set (st2 := untilSymbol text c st1) in *. simpl in H2lo, H2ls, H2io.
  destruct (padding m) eqn:Hpad.
  - destruct (padding_loop text inner (String.length o) c st2) as [st3 | e | |] eqn:Hloop;
      simpl; try discriminate.
    + apply (padding_loop_ret _ _ close_nonempty) in Hloop
        as (Hexit & H3lo & H3hi & H3ls & H3io).
      specialize (H3hi H2hi).
      destruct (validate m _) eqn:Hval.
      * destruct (accept text c 0 st3) eqn:Hclose.
        -- right; right. exists (pos st3).
           unfold accept in Hclose, Hexit. rewrite Nat.add_0_r in Hclose.
           pose proof (startsWith_length _ _ _ Hclose) as Hclen.
           split.
           ++ unfold fires_at. rewrite Hpad.
              do 5 (split; [first [assumption | lia] |]).
              split; [intros _; exact Hexit | intros H; discriminate H].
           ++ unfold fired_state. rewrite H3io, H2io.
              destruct (recursive m); [destruct (self _) |]; reflexivity.
        -- right; left. exists st3. repeat split; (congruence || lia).
      * right; left. eexists. split; [reflexivity |]. simpl.
        repeat split; (congruence || lia).
    + exfalso.
      assert (forall fuel st0, padding_loop text fuel (String.length o) c st0 <> Throw e)
        as Hno.
      { induction fuel as [| fuel IH]; intros st0; rewrite padding_loop_eq;
          destruct (accept text c 1 st0); try discriminate. apply IH. }
      exact (Hno _ _ Hloop).
    + left. split; [reflexivity |].
      destruct (Nat.lt_ge_cases inner (String.length text)) as [Hlt | Hge]; [exact Hlt |].
      destruct (padding_loop_terminates text (String.length o) c close_nonempty inner st2)
        as (st3 & Hret & _); [lia | congruence].
    + exfalso.
      assert (forall fuel st0, padding_loop text fuel (String.length o) c st0 <> Unsupported)
        as Hno.
      { induction fuel as [| fuel IH]; intros st0; rewrite padding_loop_eq;
          destruct (accept text c 1 st0); try discriminate. apply IH. }
      exact (Hno _ _ Hloop).
  - simpl.
    destruct (validate m _) eqn:Hval.
    + destruct (accept text c 0 st2) eqn:Hclose.
      * right; right. exists (pos st2).
        unfold accept in Hclose. rewrite Nat.add_0_r in Hclose.
        pose proof (startsWith_length _ _ _ Hclose) as Hclen.
        split.
        -- unfold fires_at. rewrite Hpad.
           do 5 (split; [first [assumption | lia] |]).
           split; [intros H; discriminate H | intros _; now apply Hfirst].
        -- unfold fired_state. rewrite H2io.
           destruct (recursive m); [destruct (self _) |]; reflexivity.
      * right; left. exists st2. repeat split; (congruence || lia).
    + right; left. eexists. split; [reflexivity |]. simpl.
      repeat split; (congruence || lia).
Qed.

End Attempt.

(* ================================================================= *)
(** ** One turn of the scanning loop, literal delimiters *)

Section Turn.

Variable regexp_exec : string -> string -> outcome ExecResult.
Variable self : string -> outcome string.
Variable text : string.
Variable inner : nat.

Lemma literal_closed_inv (m : Transformer) :
  literal_closed m = true ->
  exists o c, open m = PString o /\ close m = PString c /\ nonempty c = true.
Proof.
  unfold literal_closed. destruct (open m) as [o | |]; try discriminate.
  destruct (close m) as [c | |]; try discriminate. intros H. now exists o, c.
Qed.

(** [some] over literal candidates: all of them answer [false] and the
    output is untouched, or one of them fires on a span found from a
    cursor that the earlier ones may have moved forward. *)
Lemma some_matches_cases :
  forall ms st,
    forallb literal_closed ms = true ->
    pos st <= String.length text ->
    (some_matches regexp_exec self text inner ms st = OutOfFuel /\
     inner < String.length text) \/
    (exists st',
        some_matches regexp_exec self text inner ms st = Ret (false, st') /\
        io st' = io st /\ lastSlice st' = lastSlice st /\
        pos st <= pos st' /\ pos st' <= String.length text) \/
    (exists m o c st1 to,
        In m ms /\ open m = PString o /\ close m = PString c /\ nonempty c = true /\
        io st1 = io st /\ lastSlice st1 = lastSlice st /\
        pos st <= pos st1 /\ fires_at text m o c st1 to /\
        some_matches regexp_exec self text inner ms st =
        (parsed <- rewritten self m (slice text (pos st1 + String.length o) to);;
         Ret (true, fired_state c st1 to parsed))).
Proof.
  induction ms as [| m ms IH]; intros st Hall Hpos; simpl.
  - right; left. exists st. repeat split; (reflexivity || lia).
  - simpl in Hall. apply andb_prop in Hall as [Hm Hms].
    destruct (literal_closed_inv m Hm) as (o & c & Ho & Hc & Hne).
    destruct (literal_attempt_cases regexp_exec self text inner m o c Ho Hc Hne st _ Hpos
                eq_refl)
      as [[-> Hin] | [(st' & -> & Hio & Hls & Hlo & Hhi) | (to & Hfire & ->)]].
    + now left.
    + simpl. destruct (IH st' Hms Hhi)
        as [[-> Hin] | [(st2 & -> & Hio2 & Hls2 & Hlo2 & Hhi2)
                 | (m' & o' & c' & st1 & to & Hin & Ho' & Hc' & Hne' & Hio1 & Hls1 & Hlo1
                    & Hfire & ->)]].
      * now left.
      * right; left. exists st2. repeat split; (congruence || lia).
      * right; right. exists m', o', c', st1, to.
        repeat (split; [first [now right | assumption | congruence | lia] |]).
        reflexivity.
    + right; right. exists m, o, c, st, to.
      repeat (split; [first [now left | assumption | reflexivity | lia] |]).
      destruct (rewritten self m _); reflexivity.
Qed.

Variable transformers : list Transformer.
Hypothesis all_literal : forallb literal_closed transformers = true.

(** A turn that returns has either flushed the input it stepped over,
    as it stands, or appended the rewrite of a span of the input that
    [validate] accepted; either way the emit boundary has caught up with
    the cursor and the cursor has moved forward. *)
Lemma literal_turn (st st' : ScanState) :
  pos st < String.length text ->
  lastSlice st = pos st ->
  iteration regexp_exec self transformers text inner st = Ret st' ->
  lastSlice st' = pos st' /\ pos st < pos st' /\
  (io st' = (io st ++ [slice text (pos st) (pos st')])%list \/
   exists m a b parsed,
     In m transformers /\ validate m (slice text a b) = true /\
     rewritten self m (slice text a b) = Ret parsed /\
     io st' = (io st ++ [parsed])%list).
Proof.
  intros Hpos Hlast. unfold iteration.
  destruct (Nat.ltb 0 _).
  - destruct (some_matches_cases (filter (is_match text st) transformers) st)
      as [[-> _] | [(st1 & -> & Hio & Hls & Hlo & Hhi)
               | (m & o & c & st1 & to & Hin & Ho & Hc & Hne & Hio & Hls & Hlo & Hfire & ->)]];
      [now apply forallb_filter | lia | discriminate | |].
    + simpl. intros [= <-]. simpl. rewrite Hio, Hls, Hlast.
      repeat split; [lia | now left].
    + destruct (rewritten self m _) as [parsed | | |] eqn:Hre; simpl; try discriminate.
      intros [= <-]. simpl. apply nonempty_length in Hne.
      destruct Hfire as (_ & Hto & _ & _ & Hval & _).
      repeat split; [lia |]. right.
      exists m, (pos st1 + String.length o), to, parsed.
      apply filter_In in Hin as [Hin _]. rewrite Hio. now repeat split.
  - intros [= <-]. simpl. rewrite Hlast. repeat split; [lia | now left].
Qed.

End Turn.

(* ================================================================= *)
(** ** Scans in which nothing fires *)

Section Quiet.

Variable regexp_exec : string -> string -> outcome ExecResult.
Variable self : string -> outcome string.
Variable transformers : list Transformer.
Variable text : string.
Variable inner : nat.

(** Every turn ends with all candidates answering [false], the output
    untouched and the cursor not moved backwards. *)
Hypothesis quiet :
  forall st,
    pos st < String.length text ->
    exists st1,
      some_matches regexp_exec self text inner (filter (is_match text st) transformers) st
      = Ret (false, st1) /\
      io st1 = io st /\ lastSlice st1 = lastSlice st /\ pos st <= pos st1.

Lemma quiet_scan :
  forall fuel st,
    String.length text - pos st <= fuel ->
    lastSlice st = pos st ->
    join (io st) = take (pos st) text ->
    exists st',
      scan regexp_exec self transformers text inner fuel st = Ret st' /\
      join (io st') = text.
Proof.
  induction fuel as [| fuel IH]; intros st Hfuel Hlast Hjoin; rewrite scan_eq;
    destruct (Nat.ltb_spec (pos st) (String.length text)) as [Hlt | Hge]; try lia;
    try (exists st; split; [reflexivity | rewrite Hjoin; now apply take_all]).
  destruct (quiet st Hlt) as (st1 & Hsome & Hio & Hls & Hle).
  assert (iteration regexp_exec self transformers text inner st
          = Ret (slice_to_io text (set_pos st1 (pos st1 + 1)))) as ->.
  { unfold iteration. destruct (filter (is_match text st) transformers) eqn:Hf.
    - simpl in Hsome. injection Hsome as <-. reflexivity.
    - simpl Nat.ltb. cbv iota. now rewrite Hsome. }
  simpl. apply IH; simpl; try lia.
  rewrite join_snoc, Hio, Hjoin, Hls, Hlast. apply take_slice. lia.
Qed.

Lemma quiet_format_body (fuel : nat) :
  String.length text <= fuel ->
  exists st',
    scan regexp_exec self transformers text inner fuel initial = Ret st' /\
    join (io st') = text.
Proof.
  intros Hfuel. apply quiet_scan; simpl; try lia; reflexivity.
Qed.

End Quiet.

(** X1. A text in which no registered opening delimiter occurs comes
    back unchanged: when every transformer has a literal opening
    delimiter and none of them starts at any position of the text,
    [format] returns the text, for any fuel above its length. *)
Theorem format_without_opening_delimiter regexp_exec
        (transformers : list Transformer) (text : string) (fuel : nat) :
  (forall m, In m transformers ->
     exists o, open m = PString o /\
               forall p, p < String.length text -> startsWith text o p = false) ->
  String.length text < fuel ->
  format regexp_exec fuel transformers text = Ret text.
Proof.
  intros Hnone Hfuel. destruct fuel as [| fuel]; [lia |]. simpl.
  destruct (quiet_format_body regexp_exec (format regexp_exec fuel transformers)
              transformers text fuel) with (fuel := fuel) as (st' & -> & Hjoin);
    [| lia | simpl; now rewrite Hjoin].
  intros st Hlt.
  assert (filter (is_match text st) transformers = []) as ->.
  { clear -Hnone Hlt. induction transformers as [| m ms IH]; [reflexivity |].
    simpl. destruct (Hnone m (or_introl eq_refl)) as (o & Ho & Hno).
    rewrite (is_match_startsWith text st m o Ho) by lia. rewrite (Hno _ Hlt).
    apply IH. intros m' Hin. apply Hnone. now right. }
  exists st. repeat split; (reflexivity || lia).
Qed.

Lemma format_without_opening_delimiter_witness :
  format RegExp.exec 19 [bold; italic; code] "no delimiters here" = Ret "no delimiters here".
Proof.
  apply format_without_opening_delimiter; [| simpl; lia].
  intros m [<- | [<- | [<- | []]]]; eexists; (split; [reflexivity |]);
    intros p Hp; simpl in Hp;
    do 18 (destruct p as [| p]; [reflexivity |]); lia.
Defined.

(** When no transformer of a literal registry can fire, the text comes
    back unchanged. *)
Lemma format_when_nothing_fires regexp_exec
      (transformers : list Transformer) (text : string) (fuel : nat) :
  forallb literal_closed transformers = true ->
  (forall m o c st to,
      In m transformers -> open m = PString o -> close m = PString c ->
      ~ fires_at text m o c st to) ->
  String.length text < fuel ->
  format regexp_exec fuel transformers text = Ret text.
Proof.
  intros Hall Hmute Hfuel. destruct fuel as [| fuel]; [lia |]. simpl.
  destruct (quiet_format_body regexp_exec (format regexp_exec fuel transformers)
              transformers text fuel) with (fuel := fuel) as (st' & -> & Hjoin);
    [| lia | simpl; now rewrite Hjoin].
  intros st Hlt.
  destruct (some_matches_cases regexp_exec (format regexp_exec fuel transformers) text fuel
              (filter (is_match text st) transformers) st)
    as [[_ Hout] | [(st1 & Hsome & Hio & Hls & Hlo & Hhi)
               | (m & o & c & st1 & to & Hin & Ho & Hc & _ & _ & _ & _ & Hfire & _)]];
    [now apply forallb_filter | lia | | |].
  - lia.
  - exists st1. repeat split; (assumption || lia).
  - exfalso. apply filter_In in Hin as [Hin _]. exact (Hmute m o c st1 to Hin Ho Hc Hfire).
Qed.

Lemma literal_closed_all (transformers : list Transformer) :
  (forall m, In m transformers ->
     exists o c, open m = PString o /\ close m = PString c /\ nonempty c = true) ->
  forallb literal_closed transformers = true.
Proof.
  intros H. apply forallb_forall. intros m Hin.
  destruct (H m Hin) as (o & c & Ho & Hc & Hne). unfold literal_closed.
  now rewrite Ho, Hc.
Qed.

(** X2. A text in which no registered closing delimiter occurs comes
    back unchanged, whatever opening delimiters it contains: when every
    transformer has literal delimiters and its non-empty closing
    delimiter starts at no position of the text, [format] returns the
    text, for any fuel above its length. *)
Theorem format_without_closing_delimiter regexp_exec
        (transformers : list Transformer) (text : string) (fuel : nat) :
  (forall m, In m transformers ->
     exists o c, open m = PString o /\ close m = PString c /\ nonempty c = true /\
                 forall p, startsWith text c p = false) ->
  String.length text < fuel ->
  format regexp_exec fuel transformers text = Ret text.
Proof.
  intros Hnone Hfuel. apply format_when_nothing_fires; [| | exact Hfuel].
  - apply literal_closed_all. intros m Hin.
    destruct (Hnone m Hin) as (o & c & Ho & Hc & Hne & _). now exists o, c.
  - intros m o c st to Hin Ho Hc (_ & _ & _ & Hclose & _).
    destruct (Hnone m Hin) as (o' & c' & _ & Hc' & _ & Hno).
    rewrite Hc in Hc'. injection Hc' as <-. rewrite Hno in Hclose. discriminate.
Qed.

Lemma format_without_closing_delimiter_witness :
  format RegExp.exec 8 [italic_nonempty;
                        assign_defaults
                          {| o_name := "link"; o_symbol := None;
                             o_open := Some (PString "["); o_close := Some (PString "]");
                             o_recursive := None; o_padding := None; o_validate := None;
                             o_transformer := wrap "a" |}] "[a [b c"
  = Ret "[a [b c".
Proof.
  apply format_without_closing_delimiter; [| simpl; lia].
  intros m [<- | [<- | []]]; eexists _, _; (do 3 (split; [reflexivity |]));
    intros p; do 8 (destruct p as [| p]; [reflexivity |]); reflexivity.
Defined.

(** X3. Validators that refuse every span make [format] the identity:
    when every transformer has literal delimiters, a non-empty closing
    delimiter and a [validate] that answers [false] on every span,
    [format] returns the text unchanged, for any fuel above its
    length. *)
Theorem format_when_everything_is_vetoed regexp_exec
        (transformers : list Transformer) (text : string) (fuel : nat) :
  (forall m, In m transformers ->
     exists o c, open m = PString o /\ close m = PString c /\ nonempty c = true /\
                 forall span, validate m span = false) ->
  String.length text < fuel ->
  format regexp_exec fuel transformers text = Ret text.
Proof.
  intros Hveto Hfuel. apply format_when_nothing_fires; [| | exact Hfuel].
  - apply literal_closed_all. intros m Hin.
    destruct (Hveto m Hin) as (o & c & Ho & Hc & Hne & _). now exists o, c.
  - intros m o c st to Hin Ho Hc (_ & _ & _ & _ & Hval & _).
    destruct (Hveto m Hin) as (_ & _ & _ & _ & _ & Hno).
    rewrite Hno in Hval. discriminate.
Qed.

Lemma format_when_everything_is_vetoed_witness :
  format RegExp.exec 22
         [assign_defaults (guarded_options "bold" "**" (fun _ => false) (wrap "b"));
          assign_defaults (guarded_options "italic" "*" (fun _ => false) (wrap "i"))]
         "**bold** and *italic*"
  = Ret "**bold** and *italic*".
Proof.
  apply format_when_everything_is_vetoed; [| simpl; lia].
  intros m [<- | [<- | []]]; eexists _, _; repeat split.
Defined.

(* ================================================================= *)
(** ** The shape of the output *)

Section Segments.

Variable regexp_exec : string -> string -> outcome ExecResult.
Variable self : string -> outcome string.
Variable transformers : list Transformer.
Variable text : string.
Variable inner : nat.
Hypothesis all_literal : forallb literal_closed transformers = true.

Lemma scan_segments :
  forall fuel st st',
    lastSlice st = pos st ->
    scan regexp_exec self transformers text inner fuel st = Ret st' ->
    exists pieces,
      io st' = (io st ++ pieces)%list /\
      Forall (fragment_of self transformers text) pieces.
Proof.
  induction fuel as [| fuel IH]; intros st st' Hlast; rewrite scan_eq;
    destruct (Nat.ltb_spec (pos st) (String.length text)) as [Hlt | Hge];
    try discriminate;
    try (intros [= <-]; exists []; split; [now rewrite app_nil_r | constructor]).
  destruct (iteration _ _ _ _ _ _) as [st1 | | |] eqn:Hturn; simpl; try discriminate.
  destruct (literal_turn regexp_exec self text inner transformers all_literal st st1
              Hlt Hlast Hturn) as (Hlast1 & _ & Hio).
  intros Hscan. destruct (IH st1 st' Hlast1 Hscan) as (pieces & -> & Hall).
  destruct Hio as [-> | (m & a & b & parsed & Hin & Hval & Hre & ->)].
  - eexists. rewrite <- app_assoc. split; [reflexivity |]. simpl.
    constructor; [left; now eexists _, _ | exact Hall].
  - eexists. rewrite <- app_assoc. split; [reflexivity |]. simpl.
    constructor; [right; now exists m, a, b | exact Hall].
Qed.

End Segments.

(** X4. The output of [format] is a concatenation of fragments, each of
    which is a contiguous slice of the input or the rewrite, by a
    registered transformer, of a contiguous slice that its [validate]
    accepted (scanned again when the transformer is recursive); this for
    every registry of transformers with literal delimiters and a
    non-empty closing delimiter. *)
Theorem format_output_is_segmented regexp_exec
        (transformers : list Transformer) (text out : string) (fuel : nat) :
  forallb literal_closed transformers = true ->
  format regexp_exec (S fuel) transformers text = Ret out ->
  exists pieces,
    out = join pieces /\
    Forall (fragment_of (format regexp_exec fuel transformers) transformers text) pieces.
Proof.
  intros Hall. simpl.
  destruct (scan _ _ _ _ _ _ _) as [st' | | |] eqn:Hscan; simpl; try discriminate.
  intros [= <-].
  destruct (scan_segments regexp_exec (format regexp_exec fuel transformers) transformers
              text fuel Hall fuel initial st' eq_refl Hscan) as (pieces & Hio & Hfrag).
  exists pieces. simpl in Hio. now rewrite Hio.
Qed.

Lemma format_output_is_segmented_witness :
  exists pieces,
    "<b>bold</b> and <i>italic</i>" = join pieces /\
    Forall (fragment_of (format RegExp.exec 14 [bold; italic]) [bold; italic]
              "**bold** and *italic*") pieces.
Proof.
  apply (format_output_is_segmented RegExp.exec [bold; italic] "**bold** and *italic*"
           "<b>bold</b> and <i>italic</i>" 14); reflexivity.
Defined.

(** X5. A transformer with literal delimiters fires only on a delimited
    span that [validate] accepts.  When its attempt answers [true], the
    opening delimiter starts at the cursor, the closing delimiter starts
    at some [to] after it within the text, the span between them was
    accepted by [validate], and the attempt has appended the rewrite of
    exactly that span and moved the cursor and the emit boundary just
    past the closing delimiter.  With padding the closing delimiter does
    not start again one character after [to]; without padding [to] is
    its first occurrence after the opening delimiter. *)
Theorem attempt_fires_on_delimited_span regexp_exec self (text : string) (inner : nat)
        (m : Transformer) (o c : string) (st st' : ScanState) :
  open m = PString o -> close m = PString c -> nonempty c = true ->
  pos st <= String.length text ->
  attempt regexp_exec self text inner m st = Ret (true, st') ->
  exists to parsed,
    fires_at text m o c st to /\
    rewritten self m (slice text (pos st + String.length o) to) = Ret parsed /\
    st' = fired_state c st to parsed.
Proof.
  intros Ho Hc Hne Hpos Hrun.
  destruct (literal_attempt_cases regexp_exec self text inner m o c Ho Hc Hne st _ Hpos Hrun)
    as [[[=] _] | [(st1 & [=] & _) | (to & Hfire & Heq)]].
  destruct (rewritten self m _) as [parsed | | |] eqn:Hre; simpl in Heq; try discriminate.
  injection Heq as ->. now exists to, parsed.
Qed.

Lemma attempt_fires_on_delimited_span_witness :
  exists to parsed,
    fires_at "say *a* *b*" italic "*" "*" {| pos := 4; lastSlice := 4; io := ["say "] |} to /\
    rewritten (fun s => Ret s) italic (slice "say *a* *b*" (4 + 1) to) = Ret parsed /\
    {| pos := 7; lastSlice := 7; io := ["say "; "<i>a</i>"] |}
    = fired_state "*" {| pos := 4; lastSlice := 4; io := ["say "] |} to parsed.
Proof.
  apply (attempt_fires_on_delimited_span RegExp.exec (fun s => Ret s) "say *a* *b*" 11 italic
           "*" "*" {| pos := 4; lastSlice := 4; io := ["say "] |}); try reflexivity.
  simpl. lia.
Defined.

(* ================================================================= *)
(** ** A text that is one delimited span *)

Lemma find_intro (search : string) :
  forall k s,
    prefix search (drop k s) = true ->
    (forall j, j < k -> prefix search (drop j s) = false) ->
    k <= String.length s ->
    find search s = Some k.
Proof.
  induction k as [| k IH]; intros s Hk Hbefore Hlen; rewrite find_eq.
  - simpl in Hk. now rewrite Hk.
  - pose proof (Hbefore 0 ltac:(lia)) as H0. simpl in H0. rewrite H0.
    destruct s as [| a s]; [simpl in Hlen; lia |].
    rewrite (IH s); [reflexivity | exact Hk | | simpl in Hlen; lia].
    intros j Hj. apply (Hbefore (S j)). lia.
Qed.

Lemma startsWith_app_length (a b search : string) (q : nat) :
  startsWith (a ++ b) search (String.length a + q) = startsWith b search q.
Proof.
  unfold startsWith. now rewrite <- drop_drop, drop_app_length.
Qed.

Lemma slice_app_middle (a b c : string) :
  slice (a ++ b ++ c) (String.length a) (String.length a + String.length b) = b.
Proof.
  unfold slice. rewrite drop_app_length.
  replace (String.length a + String.length b - String.length a) with (String.length b) by lia.
  apply take_app_length.
Qed.

Lemma indexOf_found (s search : string) (p i : nat) :
  indexOf s search p = Some i -> startsWith s search i = true.
Proof.
  unfold indexOf, startsWith.
  destruct (find search (drop p s)) as [k |] eqn:E; simpl; [| discriminate].
  intros [= <-]. apply find_some_spec in E as [Hk _].
  rewrite <- drop_drop.
  destruct (Nat.le_gt_cases p (String.length s)) as [H | H].
  - now rewrite Nat.min_l by exact H.
  - rewrite Nat.min_r by lia. rewrite (drop_all s p) in Hk by lia.
    now rewrite (drop_all s (String.length s)) by lia.
Qed.

Lemma first_closer_attempt regexp_exec self (text : string) (inner : nat)
      (m : Transformer) (o c : string) (st : ScanState) (to : nat) :
  open m = PString o -> close m = PString c ->
  startsWith text o (pos st) = true ->
  indexOf text c (pos st + String.length o) = Some to ->
  (padding m = true -> startsWith text c (to + 1) = false) ->
  validate m (slice text (pos st + String.length o) to) = true ->
  attempt regexp_exec self text inner m st
  = (parsed <- rewritten self m (slice text (pos st + String.length o) to);;
     Ret (true, fired_state c st to parsed)).
Proof.
  intros Ho Hc Hacc Hidx Hpad Hval.
  pose proof (indexOf_found _ _ _ _ Hidx) as Hclose.
  unfold attempt, literal_attempt, rewritten, fired_state. rewrite Ho, Hc.
  cbn [is_RegExp orb text_of length_of bind].
  unfold accept at 1. rewrite Nat.add_0_r, Hacc. cbn [bind].
  unfold untilSymbol. cbn [pos set_pos]. rewrite Hidx, set_pos_set_pos.
  set (st2 := set_pos st to).
  assert ((if padding m then padding_loop text inner (String.length o) c st2
           else Ret st2) = Ret st2) as ->.
  { destruct (padding m); [| reflexivity].
    rewrite padding_loop_eq. unfold accept. change (pos st2) with to. now rewrite Hpad. }
  cbn [bind]. change (pos st2) with to. change (io st2) with (io st).
  rewrite Hval. unfold accept. change (pos st2) with to.
  rewrite Nat.add_0_r, Hclose.
  destruct (recursive m); [destruct (self _) |]; reflexivity.
Qed.

(** X6. A transformer with literal delimiters fires on the first
    delimited span after the cursor: when its opening delimiter starts
    at the cursor, the first occurrence of its closing delimiter after
    it is at [to], [validate] accepts the span in between and, with
    padding, the closing delimiter does not start again one character
    after [to], the attempt appends the rewrite of that span (scanned
    again when the transformer is recursive) and moves the cursor and
    the emit boundary just past the closing delimiter. *)
Theorem attempt_fires_on_first_closer regexp_exec self (text : string) (inner : nat)
        (m : Transformer) (o c : string) (st : ScanState) (to : nat) :
  open m = PString o -> close m = PString c ->
  startsWith text o (pos st) = true ->
  indexOf text c (pos st + String.length o) = Some to ->
  (padding m = true -> startsWith text c (to + 1) = false) ->
  validate m (slice text (pos st + String.length o) to) = true ->
  attempt regexp_exec self text inner m st
  = (parsed <- rewritten self m (slice text (pos st + String.length o) to);;
     Ret (true, fired_state c st to parsed)).
Proof. apply first_closer_attempt. Qed.

Lemma attempt_fires_on_first_closer_witness :
  attempt RegExp.exec (fun s => Ret s) "say *a* *b*" 0 italic
          {| pos := 4; lastSlice := 4; io := ["say "] |}
  = (parsed <- rewritten (fun s => Ret s) italic (slice "say *a* *b*" (4 + 1) 6);;
     Ret (true, fired_state "*" {| pos := 4; lastSlice := 4; io := ["say "] |} 6 parsed)).
Proof.
  apply (attempt_fires_on_first_closer RegExp.exec (fun s => Ret s) "say *a* *b*" 0 italic
           "*" "*" {| pos := 4; lastSlice := 4; io := ["say "] |} 6); reflexivity.
Defined.

(** X7. A text made of exactly one span between the delimiters of the
    first registered transformer becomes the rewrite of that span:
    [format(open + span + close)] is [transformer(span)], scanned again
    when the transformer is recursive.  It is required that [validate]
    accepts the span, that the closing delimiter is not empty, and that
    it starts nowhere in [span + close] before the end of the span. *)
Theorem format_of_one_span regexp_exec (m : Transformer) (others : list Transformer)
        (o c span : string) (fuel : nat) :
  open m = PString o -> close m = PString c -> nonempty c = true ->
  validate m span = true ->
  (forall q, q < String.length span -> startsWith (span ++ c) c q = false) ->
  format regexp_exec (S (S fuel)) (m :: others) (o ++ span ++ c)
  = rewritten (format regexp_exec (S fuel) (m :: others)) m span.
Proof.
  intros Ho Hc Hne Hval Hfirst.
  set (text := o ++ span ++ c).
  set (self := format regexp_exec (S fuel) (m :: others)).
  assert (String.length text = String.length o + String.length span + String.length c)
    as Hlen by (unfold text; rewrite !length_app; lia).
  pose proof (nonempty_length _ Hne) as Hc1.
  assert (indexOf text c (String.length o)
          = Some (String.length o + String.length span)) as Hidx.
  { unfold indexOf, text. rewrite drop_app_length, Nat.min_l by (fold text; lia).
    rewrite (find_intro c (String.length span)); [reflexivity | | | rewrite length_app; lia].
    - rewrite drop_app_length. apply prefix_refl.
    - exact Hfirst. }
  assert (attempt regexp_exec self text (S fuel) m initial
          = (parsed <- rewritten self m span;;
             Ret (true, fired_state c initial (String.length o + String.length span) parsed)))
    as Hatt.
  { rewrite (first_closer_attempt regexp_exec self text (S fuel) m o c initial
               (String.length o + String.length span) Ho Hc).
    - cbn [pos initial Nat.add]. unfold text. now rewrite slice_app_middle.
    - apply prefix_app.
    - exact Hidx.
    - intros _. destruct (startsWith text c _) eqn:E; [| reflexivity].
      apply startsWith_length in E. lia.
    - cbn [pos initial Nat.add]. unfold text. now rewrite slice_app_middle. }
  change (format regexp_exec (S (S fuel)) (m :: others) text) with
    (st <- scan regexp_exec self (m :: others) text (S fuel) (S fuel) initial;;
     Ret (join (io st))).
  rewrite scan_eq. cbn [pos initial].
  destruct (Nat.ltb_spec 0 (String.length text)) as [_ | Hge]; [| lia].
  unfold iteration. cbn [filter].
  assert (is_match text initial m = true) as ->.
  { rewrite (is_match_startsWith text initial m o Ho) by (simpl; lia). apply prefix_app. }
  cbn [List.length Nat.ltb Nat.leb some_matches]. rewrite Hatt.
  destruct (rewritten self m span) as [parsed | e | |]; cbn [bind]; try reflexivity.
  cbn [fst snd bind]. rewrite scan_eq. unfold fired_state. cbn [pos].
  replace (String.length o + String.length span + String.length c)
    with (String.length text) by lia.
  rewrite Nat.ltb_irrefl. cbn [bind io initial app join fold_right].
  now rewrite append_empty_r.
Qed.

Lemma format_of_one_span_witness :
  format RegExp.exec 2 [code; italic] ("`" ++ "a*b" ++ "`")
  = rewritten (format RegExp.exec 1 [code; italic]) code "a*b".
Proof.
  apply (format_of_one_span RegExp.exec code [italic] "`" "`" "a*b" 0); try reflexivity.
  intros q Hq. simpl in Hq. do 3 (destruct q as [| q]; [reflexivity |]). lia.
Defined.

(* ================================================================= *)
(** ** What [format] does not depend on *)

Section Independence.

Variables regexp_exec regexp_exec' : string -> string -> outcome ExecResult.
Variables self self' : string -> outcome string.
Variable text : string.
Variable inner : nat.

Lemma attempt_without_RegExp (m : Transformer) (st : ScanState) :
  (recursive m = true -> forall s, self s = self' s) ->
  without_RegExp m = true ->
  attempt regexp_exec self text inner m st = attempt regexp_exec' self' text inner m st.
Proof.
  intros Hself Hlit. unfold without_RegExp in Hlit. apply negb_true_iff in Hlit.
  unfold attempt, literal_attempt. rewrite Hlit.
  destruct (recursive m); [| reflexivity].
  destruct (accept text (text_of (open m)) 0 st); [| reflexivity].
  destruct (length_of (open m)); simpl; try reflexivity.
  match goal with |- bind ?x _ = bind ?x _ => destruct x end; simpl; try reflexivity.
  destruct (validate m _); [| reflexivity].
  destruct (accept text (text_of (close m)) 0 _); [| reflexivity].
  now rewrite Hself.
Qed.

Lemma some_matches_without_RegExp :
  forall ms st,
    (forall m, In m ms -> recursive m = true -> forall s, self s = self' s) ->
    forallb without_RegExp ms = true ->
    some_matches regexp_exec self text inner ms st
    = some_matches regexp_exec' self' text inner ms st.
Proof.
  induction ms as [| m ms IH]; intros st Hself Hall; simpl; [reflexivity |].
  simpl in Hall. apply andb_prop in Hall as [Hm Hms].
  rewrite (attempt_without_RegExp m st); [| apply Hself; now left | exact Hm].
  destruct (attempt regexp_exec' self' text inner m st) as [[b st1] | | |]; simpl;
    try reflexivity.
  destruct b; [reflexivity |]. apply IH; [| exact Hms].
  intros m' Hin. apply Hself. now right.
Qed.

End Independence.

Lemma scan_without_RegExp regexp_exec regexp_exec' self self'
      (transformers : list Transformer) (text : string) (inner : nat) :
  (forall m, In m transformers -> recursive m = true -> forall s, self s = self' s) ->
  forallb without_RegExp transformers = true ->
  forall fuel st,
    scan regexp_exec self transformers text inner fuel st
    = scan regexp_exec' self' transformers text inner fuel st.
Proof.
  intros Hself Hall. induction fuel as [| fuel IH]; intros st; rewrite !scan_eq;
    destruct (Nat.ltb (pos st) _); try reflexivity.
  assert (iteration regexp_exec self transformers text inner st
          = iteration regexp_exec' self' transformers text inner st) as ->.
  { unfold iteration. destruct (Nat.ltb 0 _); [| reflexivity].
    rewrite (some_matches_without_RegExp regexp_exec regexp_exec' self self' text inner);
      [reflexivity | | now apply forallb_filter].
    intros m Hin. apply filter_In in Hin as [Hin _]. now apply Hself. }
  destruct (iteration _ _ _ _ _ _); simpl; try reflexivity. apply IH.
Qed.

(** X8. [format] does not consult the [RegExp] engine when no registered
    delimiter is a [RegExp]: with two engines whatsoever it gives the
    same answer. *)
Theorem format_ignores_engine_without_RegExp regexp_exec regexp_exec'
        (transformers : list Transformer) :
  forallb without_RegExp transformers = true ->
  forall fuel text,
    format regexp_exec fuel transformers text = format regexp_exec' fuel transformers text.
Proof.
  intros Hall. induction fuel as [| fuel IH]; intros text; [reflexivity |].
  simpl. rewrite (scan_without_RegExp regexp_exec regexp_exec'
                    (format regexp_exec fuel transformers)
                    (format regexp_exec' fuel transformers));
    [reflexivity | | exact Hall].
  intros m _ _ s. apply IH.
Qed.

Lemma format_ignores_engine_without_RegExp_witness :
  format RegExp.exec 15 [bold; italic; code] "**bold** and *italic*"
  = format (fun _ _ => Throw SyntaxError) 15 [bold; italic; code] "**bold** and *italic*".
Proof. apply format_ignores_engine_without_RegExp. reflexivity. Defined.

(* ================================================================= *)
(** ** A transformer that has nothing to open *)

Lemma some_matches_ignores_self regexp_exec self self' (text : string) (inner : nat) :
  forall ms st,
    forallb (fun m => negb (recursive m)) ms = true ->
    some_matches regexp_exec self text inner ms st
    = some_matches regexp_exec self' text inner ms st.
Proof.
  induction ms as [| m ms IH]; intros st Hall; simpl; [reflexivity |].
  simpl in Hall. apply andb_prop in Hall as [Hm Hms]. apply negb_true_iff in Hm.
  rewrite (attempt_ignores_self regexp_exec self' text self inner m st Hm).
  destruct (attempt regexp_exec self' text inner m st) as [[b st1] | | |]; simpl;
    try reflexivity.
  destruct b; [reflexivity | now apply IH].
Qed.

(** X9. Registering one more transformer does not change the result on
    a text in which its literal opening delimiter does not occur, when
    the transformers already registered are not recursive: wherever the
    new transformer stands in the registry, [format] answers as
    without it. *)
Theorem format_ignores_transformer_without_opener regexp_exec
        (before after : list Transformer) (t : Transformer) (o text : string) (fuel : nat) :
  open t = PString o ->
  (forall p, p < String.length text -> startsWith text o p = false) ->
  forallb (fun m => negb (recursive m)) (before ++ after) = true ->
  format regexp_exec fuel (before ++ t :: after) text
  = format regexp_exec fuel (before ++ after) text.
Proof.
  intros Ho Hno Hrec. destruct fuel as [| fuel]; [reflexivity |]. simpl.
  generalize (format regexp_exec fuel (before ++ t :: after)) as self'.
  generalize (format regexp_exec fuel (before ++ after)) as self.
  intros self self'.
  assert (forall n st,
             scan regexp_exec self' (before ++ t :: after) text fuel n st
             = scan regexp_exec self (before ++ after) text fuel n st) as Hscan.
  { induction n as [| n IH]; intros st; rewrite !scan_eq;
      destruct (Nat.ltb_spec (pos st) (String.length text)) as [Hlt | Hge];
      try reflexivity.
    assert (iteration regexp_exec self' (before ++ t :: after) text fuel st
            = iteration regexp_exec self (before ++ after) text fuel st) as ->.
    { unfold iteration. rewrite !filter_app. simpl filter.
      rewrite (is_match_startsWith text st t o Ho) by lia. rewrite (Hno _ Hlt).
      rewrite <- filter_app.
      rewrite (some_matches_ignores_self regexp_exec self' self text fuel);
        [reflexivity | now apply forallb_filter]. }
    destruct (iteration _ _ _ _ _ _); simpl; try reflexivity. apply IH. }
  now rewrite Hscan.
Qed.

Lemma format_ignores_transformer_without_opener_witness :
  format RegExp.exec 9 ([code] ++ bold :: []) "a `b` c"
  = format RegExp.exec 9 ([code] ++ []) "a `b` c".
Proof.
  apply (format_ignores_transformer_without_opener RegExp.exec [code] [] bold "**" "a `b` c" 9);
    try reflexivity.
  intros p Hp. simpl in Hp. do 7 (destruct p as [| p]; [reflexivity |]). lia.
Defined.

(* ================================================================= *)
(** ** Delimiters that are empty or missing *)

Lemma prefix_empty (s : string) : prefix "" s = true.
Proof. now destruct s. Qed.

Lemma padding_loop_empty_close (text : string) (open_length : nat) :
  forall fuel st, padding_loop text fuel open_length "" st = OutOfFuel.
Proof.
  induction fuel as [| fuel IH]; intros st; rewrite padding_loop_eq;
    unfold accept, startsWith; rewrite prefix_empty; [reflexivity | apply IH].
Qed.

(** X10. An empty closing delimiter with padding makes [format] loop
    for ever: when the first registered transformer has a literal
    opening delimiter that starts the text, an empty closing delimiter
    and [padding = true], no amount of fuel gives a result: the answer
    is [OutOfFuel] for every fuel. *)
Theorem format_loops_on_empty_closing_delimiter regexp_exec
        (m : Transformer) (others : list Transformer) (o text : string) (fuel : nat) :
  open m = PString o -> close m = PString "" -> padding m = true ->
  text <> "" -> startsWith text o 0 = true ->
  format regexp_exec fuel (m :: others) text = OutOfFuel.
Proof.
  intros Ho Hc Hpad Hne Hstart. destruct fuel as [| fuel]; [reflexivity |].
  simpl. rewrite scan_eq. simpl pos.
  assert (0 < String.length text) as Hlen by (destruct text; [congruence | simpl; lia]).
  destruct (Nat.ltb_spec 0 (String.length text)) as [_ | H]; [| lia].
  assert (iteration regexp_exec (format regexp_exec fuel (m :: others)) (m :: others) text
            fuel initial = OutOfFuel) as Hturn.
  { unfold iteration. cbn [filter].
    rewrite (is_match_startsWith text initial m o Ho) by (simpl; lia).
    simpl pos. rewrite Hstart. cbn [List.length Nat.ltb Nat.leb some_matches].
    unfold attempt, literal_attempt. rewrite Ho, Hc, Hpad.
    cbn [is_RegExp orb text_of length_of bind]. unfold accept at 1.
    cbn [pos initial Nat.add]. rewrite Hstart. cbn [bind].
    now rewrite padding_loop_empty_close. }
  destruct fuel as [| fuel]; [reflexivity |]. now rewrite Hturn.
Qed.

Lemma format_loops_on_empty_closing_delimiter_witness :
  format RegExp.exec 1000
         [assign_defaults
            {| o_name := "heading"; o_symbol := None;
               o_open := Some (PString "#"); o_close := Some (PString "");
               o_recursive := None; o_padding := None; o_validate := None;
               o_transformer := wrap "h1" |}] "# title"
  = OutOfFuel.
Proof.
  apply (format_loops_on_empty_closing_delimiter RegExp.exec _ [] "#" "# title" 1000);
    try reflexivity.
  discriminate.
Defined.

Section Undefined.

Variable regexp_exec : string -> string -> outcome ExecResult.
Variable self : string -> outcome string.
Variable t : Transformer.
Variable text : string.
Hypothesis open_undefined : open t = PUndefined.
Hypothesis close_not_RegExp : is_RegExp (close t) = false.

Lemma undefined_turn (inner : nat) (st : ScanState) :
  iteration regexp_exec self [t] text inner st =
  if startsWith text "undefined" (pos st) then Throw TypeError
  else Ret (slice_to_io text (set_pos st (pos st + 1))).
Proof.
  unfold iteration, is_match. cbn [filter]. rewrite open_undefined.
  cbn [List.length Nat.ltb Nat.leb some_matches].
  unfold attempt, literal_attempt. rewrite open_undefined, close_not_RegExp.
  cbn [is_RegExp orb text_of length_of]. unfold accept at 1. rewrite Nat.add_0_r.
  destruct (startsWith text "undefined" (pos st)); reflexivity.
Qed.

Lemma undefined_scan_throws (inner : nat) :
  forall fuel st p,
    pos st <= p -> startsWith text "undefined" p = true ->
    String.length text - pos st <= fuel ->
    scan regexp_exec self [t] text inner fuel st = Throw TypeError.
Proof.
  induction fuel as [| fuel IH]; intros st p Hp Hocc Hfuel; rewrite scan_eq;
    pose proof (startsWith_length _ _ _ Hocc) as Hlen; simpl in Hlen;
    destruct (Nat.ltb_spec (pos st) (String.length text)) as [Hlt | Hge]; try lia.
  rewrite undefined_turn.
  destruct (startsWith text "undefined" (pos st)) eqn:Hhere; [reflexivity |].
  simpl bind. apply (IH _ p); simpl; try lia; [| exact Hocc].
  destruct (Nat.eq_dec p (pos st)) as [-> | Hneq]; [congruence | lia].
Qed.

End Undefined.

(** X11. A transformer registered without delimiters makes [format]
    throw on the texts that contain the word [undefined]: with such a
    transformer alone in the registry (its [open] is [undefined], its
    [close] is not a [RegExp]), [format] throws a [TypeError] as soon as
    [undefined] starts at some position of the text, for any fuel above
    the length of the text. *)
Theorem format_throws_on_undefined_delimiter regexp_exec (t : Transformer) (text : string)
        (fuel p : nat) :
  open t = PUndefined -> is_RegExp (close t) = false ->
  String.length text < fuel ->
  startsWith text "undefined" p = true ->
  format regexp_exec fuel [t] text = Throw TypeError.
Proof.
  intros Ho Hc Hfuel Hocc. destruct fuel as [| fuel]; [lia |]. simpl.
  rewrite (undefined_scan_throws regexp_exec _ t text Ho Hc fuel fuel initial p);
    simpl; (reflexivity || assumption || lia).
Qed.

Lemma format_throws_on_undefined_delimiter_witness :
  format RegExp.exec 15 [assign_defaults bare_options] "x is undefined" = Throw TypeError.
Proof.
  apply (format_throws_on_undefined_delimiter RegExp.exec (assign_defaults bare_options)
           "x is undefined" 15 5); (reflexivity || (simpl; lia)).
Defined.

(** X12. The same transformer leaves every other text alone: when
    [undefined] starts at no position of the text, [format] returns the
    text unchanged, without any error. *)
Theorem format_unchanged_with_undefined_delimiter regexp_exec (t : Transformer)
        (text : string) (fuel : nat) :
  open t = PUndefined -> is_RegExp (close t) = false ->
  String.length text < fuel ->
  (forall p, startsWith text "undefined" p = false) ->
  format regexp_exec fuel [t] text = Ret text.
Proof.
  intros Ho Hc Hfuel Hno. destruct fuel as [| fuel]; [lia |]. simpl.
  destruct (quiet_format_body regexp_exec (format regexp_exec fuel [t]) [t] text fuel)
    with (fuel := fuel) as (st' & -> & Hjoin); [| lia | simpl; now rewrite Hjoin].
  intros st Hlt. exists st. unfold is_match. cbn [filter]. rewrite Ho.
  cbn [some_matches]. unfold attempt, literal_attempt. rewrite Ho, Hc.
  cbn [is_RegExp orb text_of]. unfold accept. rewrite Nat.add_0_r, Hno.
  repeat split; (reflexivity || lia).
Qed.

Lemma format_unchanged_with_undefined_delimiter_witness :
  format RegExp.exec 4 [assign_defaults bare_options] "a*b" = Ret "a*b".
Proof.
  apply (format_unchanged_with_undefined_delimiter RegExp.exec
           (assign_defaults bare_options) "a*b" 4); try reflexivity; [simpl; lia |].
  intros p. do 4 (destruct p as [| p]; [reflexivity |]). reflexivity.
Defined.

(* ================================================================= *)
(** ** The pattern path: [formatRegex] *)

Lemma regex_scan_eq regexp_exec (text : string) (fuel : nat)
      (transformers : list Transformer) (st : RegexState) :
  regex_scan regexp_exec text fuel transformers st =
  if Nat.ltb (rx_pos st) (String.length text) then
    match fuel with
    | 0 => OutOfFuel
    | S fuel' =>
        st' <- regex_iteration regexp_exec text transformers st;;
        regex_scan regexp_exec text fuel' transformers st'
    end
  else Ret st.
Proof. destruct fuel; reflexivity. Qed.

Section RegexProgress.

Variable regexp_exec : string -> string -> outcome ExecResult.
Variable text : string.

Lemma regex_callback_progress (t : Transformer) (st : RegexState) :
  engine_answers regexp_exec t ->
  exists b st',
    regex_callback regexp_exec text t st = Ret (b, st') /\
    rx_pos st <= rx_pos st' /\ (b = true -> rx_pos st < rx_pos st').
Proof.
  intros (o & c & Ho & Hc & Hmatch & Htest). unfold regex_callback.
  rewrite Ho, Hc. cbn [bind].
  destruct (Hmatch (drop (rx_pos st) text)) as [r ->]. cbn [bind].
  assert (exists b st', Ret (false, st) = Ret (b, st') /\
                        rx_pos st <= rx_pos st' /\ (b = true -> rx_pos st < rx_pos st'))
    as Hstay by (exists false, st; repeat split; [lia | discriminate]).
  destruct r as [[raw [| [g |] gs]] |]; try exact Hstay.
  destruct (nonempty raw) eqn:Hraw; [| exact Hstay]. apply nonempty_length in Hraw.
  cbn [andb]. destruct (nonempty g && validate t g)%bool; [| exact Hstay].
  destruct (padding t).
  - cbn [bind]. destruct (Htest (charAtOrUndefined text (rx_pos st + String.length raw)))
      as [r ->]. cbn [bind].
    destruct r; eexists _, _; (split; [reflexivity |]); simpl; split;
      try lia; try discriminate; intros _; lia.
  - eexists _, _. split; [reflexivity |]. simpl. split; [lia | intros _; lia].
Qed.

Lemma some_transformers_progress :
  forall ts st,
    Forall (engine_answers regexp_exec) ts ->
    exists b st',
      some_transformers regexp_exec text ts st = Ret (b, st') /\
      rx_pos st <= rx_pos st' /\ (b = true -> rx_pos st < rx_pos st').
Proof.
  induction ts as [| t ts IH]; intros st Hall; simpl.
  - exists false, st. repeat split; [lia | discriminate].
  - inversion Hall as [| ? ? Ht Hts]; subst.
    destruct (regex_callback_progress t st Ht) as (b & st1 & -> & Hle & Hlt).
    simpl. destruct b.
    + exists true, st1. repeat split; [lia | intros _; now apply Hlt].
    + destruct (IH st1 Hts) as (b & st2 & -> & Hle2 & Hlt2).
      exists b, st2. repeat split; [lia | intros Hb; specialize (Hlt2 Hb); lia].
Qed.

Variable transformers : list Transformer.
Hypothesis all_answer : Forall (engine_answers regexp_exec) transformers.

Lemma regex_iteration_progress (st : RegexState) :
  exists st',
    regex_iteration regexp_exec text transformers st = Ret st' /\
    rx_pos st < rx_pos st'.
Proof.
  unfold regex_iteration.
  destruct (some_transformers_progress transformers st all_answer)
    as (b & st1 & -> & Hle & Hlt).
  simpl. destruct b.
  - exists st1. split; [reflexivity | now apply Hlt].
  - eexists. split; [reflexivity |]. simpl. lia.
Qed.

Lemma regex_scan_terminates :
  forall fuel st,
    String.length text - rx_pos st <= fuel ->
    exists st', regex_scan regexp_exec text fuel transformers st = Ret st'.
Proof.
  induction fuel as [| fuel IH]; intros st Hfuel; rewrite regex_scan_eq;
    destruct (Nat.ltb_spec (rx_pos st) (String.length text)) as [Hlt | Hge];
    try lia; try (now exists st).
  destruct (regex_iteration_progress st) as (st1 & -> & Hpos). simpl.
  apply IH. lia.
Qed.

End RegexProgress.

(** X13. [formatRegex] terminates whenever the engine answers: if, for
    every registered transformer, both delimiters are defined and the
    engine returns on the patterns built from them, then any fuel from
    the length of the text on gives a result, and every turn of the loop
    moves the cursor strictly forward (a match that counts is never
    empty). *)
Theorem formatRegex_terminates regexp_exec (transformers : list Transformer)
        (text : string) (fuel : nat) :
  Forall (engine_answers regexp_exec) transformers ->
  String.length text <= fuel ->
  (exists out, formatRegex regexp_exec fuel transformers text = Ret out) /\
  (forall st,
      exists st',
        regex_iteration regexp_exec text transformers st = Ret st' /\
        rx_pos st < rx_pos st').
Proof.
  intros Hall Hfuel. split.
  - unfold formatRegex.
    destruct (regex_scan_terminates regexp_exec text transformers Hall fuel
                {| rx_pos := 0; rx_lastPos := 0; rx_io := [] |}) as (st' & ->);
      simpl; [lia | now eexists].
  - intros st. now apply regex_iteration_progress.
Qed.

Lemma exec_answers (source : string) (r : RegExp.Node) (n : nat) :
  RegExp.parse source = RegExp.POk (r, n) ->
  forall input, exists res, RegExp.exec source input = Ret res.
Proof.
  intros H input. unfold RegExp.exec. rewrite H. now eexists.
Qed.

Lemma formatRegex_terminates_witness :
  (exists out, formatRegex RegExp.exec 9 [italic; code] "*a* `b` c" = Ret out) /\
  (forall st,
      exists st',
        regex_iteration RegExp.exec "*a* `b` c" [italic; code] st = Ret st' /\
        rx_pos st < rx_pos st').
Proof.
  apply formatRegex_terminates; [| simpl; lia].
  repeat constructor; eexists _, _; (do 2 (split; [reflexivity |])); split;
    eapply exec_answers; vm_compute; reflexivity.
Defined.

Section RegexQuiet.

Variable regexp_exec : string -> string -> outcome ExecResult.
Variable text : string.

Lemma some_transformers_never_match :
  forall ts st,
    Forall (never_matches regexp_exec text) ts ->
    rx_pos st < String.length text ->
    some_transformers regexp_exec text ts st = Ret (false, st).
Proof.
  induction ts as [| t ts IH]; intros st Hall Hlt; simpl; [reflexivity |].
  inversion Hall as [| ? ? (o & c & Ho & Hc & Hnone) Hts]; subst.
  unfold regex_callback. rewrite Ho, Hc. cbn [bind]. rewrite (Hnone _ Hlt).
  cbn [bind fst snd]. now apply IH.
Qed.

Lemma regex_scan_never_matches (transformers : list Transformer) :
  Forall (never_matches regexp_exec text) transformers ->
  forall fuel p,
    p <= String.length text ->
    String.length text - p <= fuel ->
    regex_scan regexp_exec text fuel transformers
               {| rx_pos := p; rx_lastPos := 0; rx_io := [] |}
    = Ret {| rx_pos := String.length text; rx_lastPos := 0; rx_io := [] |}.
Proof.
  intros Hall. induction fuel as [| fuel IH]; intros p Hp Hfuel; rewrite regex_scan_eq;
    cbn [rx_pos];
    destruct (Nat.ltb_spec p (String.length text)) as [Hlt | Hge]; try lia;
    try (replace p with (String.length text) by lia; reflexivity).
  unfold regex_iteration. rewrite some_transformers_never_match by assumption.
  cbn [bind fst snd rx_pos rx_lastPos rx_io]. apply IH; lia.
Qed.

End RegexQuiet.

(** X14. [formatRegex] returns the text unchanged when nothing matches:
    if at every position of the text the engine finds no match for the
    pattern of any registered transformer, the result is the text, for
    any fuel from its length on.  In particular this holds for the empty
    registry. *)
Theorem formatRegex_without_match regexp_exec (transformers : list Transformer)
        (text : string) (fuel : nat) :
  Forall (never_matches regexp_exec text) transformers ->
  String.length text <= fuel ->
  formatRegex regexp_exec fuel transformers text = Ret text.
Proof.
  intros Hall Hfuel. unfold formatRegex.
  rewrite (regex_scan_never_matches regexp_exec text transformers Hall fuel 0) by lia.
  cbn [bind rx_io rx_lastPos rx_pos app join fold_right]. unfold slice.
  simpl drop. rewrite Nat.sub_0_r, take_all by lia. now rewrite append_empty_r.
Qed.

Lemma formatRegex_without_match_witness :
  formatRegex RegExp.exec 3 [italic; code] "a*b" = Ret "a*b" /\
  formatRegex RegExp.exec 3 [] "a*b" = Ret "a*b".
Proof.
  split.
  - apply formatRegex_without_match; [| simpl; lia].
    repeat constructor; eexists _, _; (do 2 (split; [reflexivity |]));
      intros p Hp; simpl in Hp; do 3 (destruct p as [| p]; [reflexivity |]); lia.
  - apply formatRegex_without_match; [constructor | simpl; lia].
Defined.

(** X15. [formatRegex] never reads the [recursive] flag: setting the
    flag of every registered transformer to any value leaves its answer
    the same, so no rewritten fragment is ever scanned again on this
    path. *)
Theorem formatRegex_ignores_recursive regexp_exec (b : bool)
        (transformers : list Transformer) (text : string) (fuel : nat) :
  formatRegex regexp_exec fuel (map (with_recursive b) transformers) text
  = formatRegex regexp_exec fuel transformers text.
Proof.
  unfold formatRegex.
  assert (forall ts st,
             some_transformers regexp_exec text (map (with_recursive b) ts) st
             = some_transformers regexp_exec text ts st) as Hsome.
  { induction ts as [| t ts IH]; intros st; simpl; [reflexivity |].
    change (regex_callback regexp_exec text (with_recursive b t) st)
      with (regex_callback regexp_exec text t st).
    destruct (regex_callback regexp_exec text t st) as [[r st1] | | |]; simpl;
      try reflexivity.
    destruct r; [reflexivity | apply IH]. }
  assert (forall n st,
             regex_scan regexp_exec text n (map (with_recursive b) transformers) st
             = regex_scan regexp_exec text n transformers st) as ->.
  { induction n as [| n IH]; intros st; rewrite !regex_scan_eq;
      destruct (Nat.ltb (rx_pos st) _); try reflexivity.
    unfold regex_iteration. rewrite Hsome.
    destruct (some_transformers regexp_exec text transformers st) as [[r st1] | | |];
      simpl; try reflexivity.
    destruct r; apply IH. }
  reflexivity.
Qed.

(** X16. A transformer registered without delimiters makes
    [formatRegex] throw on every text but the empty one: when [open] or
    [close] of the first registered transformer is [undefined], the call
    throws a [TypeError] in its first turn, whatever the text says. *)
Theorem formatRegex_throws_on_undefined_delimiter regexp_exec (t : Transformer)
        (others : list Transformer) (text : string) (fuel : nat) :
  open t = PUndefined \/ close t = PUndefined ->
  text <> "" ->
  1 <= fuel ->
  formatRegex regexp_exec fuel (t :: others) text = Throw TypeError.
Proof.
  intros Hundef Hne Hfuel. destruct fuel as [| fuel]; [lia |].
  unfold formatRegex. rewrite regex_scan_eq. cbn [rx_pos].
  destruct text as [| a text]; [congruence |]. cbn [String.length Nat.ltb Nat.leb].
  unfold regex_iteration. cbn [some_transformers]. unfold regex_callback.
  destruct (open t) as [o | source |] eqn:Ho; cbn [normalizePattern bind];
    try reflexivity;
    (destruct Hundef as [[=] | ->]; reflexivity).
Qed.

Lemma formatRegex_throws_on_undefined_delimiter_witness :
  formatRegex RegExp.exec 1 [assign_defaults bare_options; italic] "abc" = Throw TypeError.
Proof.
  apply formatRegex_throws_on_undefined_delimiter; [now left | discriminate | lia].
Defined.

(* ================================================================= *)
(** ** Recursive transformers and termination *)

Section NestedCalls.

Variable regexp_exec : string -> string -> outcome ExecResult.
Variable self : string -> outcome string.
Variable transformers : list Transformer.
Variable text : string.
Variable inner : nat.
Hypothesis all_literal : forallb literal_closed transformers = true.
Hypothesis enough : String.length text <= inner.
Hypothesis nested_return :
  forall m a b, In m transformers -> recursive m = true ->
                exists out, self (transformer m (slice text a b)) = Ret out.

Lemma turn_returns (st : ScanState) :
  pos st < String.length text ->
  exists st',
    iteration regexp_exec self transformers text inner st = Ret st' /\ pos st < pos st'.
Proof.
  intros Hlt. unfold iteration. destruct (Nat.ltb 0 _).
  - destruct (some_matches_cases regexp_exec self text inner
                (filter (is_match text st) transformers) st)
      as [[_ Hin] | [(st1 & -> & _ & _ & Hlo & _)
                    | (m & o & c & st1 & to & Hin & _ & _ & Hne & _ & _ & Hlo & Hfire & ->)]];
      [now apply forallb_filter | lia | lia | |].
    + eexists. split; [reflexivity |]. simpl. lia.
    + apply filter_In in Hin as [Hin _]. apply nonempty_length in Hne.
      destruct Hfire as (_ & Hto & _).
      assert (exists parsed,
                 rewritten self m (slice text (pos st1 + String.length o) to) = Ret parsed)
        as [parsed ->].
      { unfold rewritten. destruct (recursive m) eqn:Hrec; [| now eexists].
        now apply nested_return. }
      eexists. split; [reflexivity |]. simpl. lia.
  - eexists. split; [reflexivity |]. simpl. lia.
Qed.

Lemma scan_returns :
  forall fuel st,
    String.length text - pos st <= fuel ->
    exists st', scan regexp_exec self transformers text inner fuel st = Ret st'.
Proof.
  induction fuel as [| fuel IH]; intros st Hfuel; rewrite scan_eq;
    destruct (Nat.ltb_spec (pos st) (String.length text)) as [Hlt | Hge];
    try lia; try (now exists st).
  destruct (turn_returns st Hlt) as (st1 & -> & Hpos). simpl. apply IH. lia.
Qed.

End NestedCalls.

(** X17. With recursive transformers [format] returns as soon as its
    nested calls do: for a registry of transformers with literal
    delimiters and a non-empty closing delimiter, if the nested [format]
    returns on the rewrite of every slice of the text by every recursive
    transformer, then [format] returns on the text. *)
Theorem format_returns_when_nested_calls_return regexp_exec
        (transformers : list Transformer) (text : string) (fuel : nat) :
  forallb literal_closed transformers = true ->
  String.length text <= fuel ->
  (forall m a b, In m transformers -> recursive m = true ->
     exists out,
       format regexp_exec fuel transformers (transformer m (slice text a b)) = Ret out) ->
  exists out, format regexp_exec (S fuel) transformers text = Ret out.
Proof.
  intros Hall Hfuel Hnested. simpl.
  destruct (scan_returns regexp_exec (format regexp_exec fuel transformers) transformers
              text fuel Hall Hfuel Hnested fuel initial) as (st' & ->); [simpl; lia |].
  now eexists.
Qed.

Lemma format_returns_when_nested_calls_return_witness :
  exists out,
    format RegExp.exec 6 [assign_defaults (symbol_options "rule" "-" (fun _ => "<hr>"))]
           "a-b-c" = Ret out.
Proof.
  apply format_returns_when_nested_calls_return; [reflexivity | simpl; lia |].
  intros m a b [<- | []] _. eexists. vm_compute. reflexivity.
Defined.

(* ================================================================= *)
(** ** The helper [untilSymbol] *)

(** X18. [untilSymbol] moves the cursor to the first occurrence of the
    symbol at or after it, or to the end of the text when there is none;
    it never moves the cursor backwards (from a cursor within the text)
    and touches neither the output nor the emit boundary. *)
Theorem untilSymbol_finds_first_occurrence (text symbol : string) (st : ScanState) :
  pos st <= String.length text ->
  pos st <= pos (untilSymbol text symbol st) /\
  pos (untilSymbol text symbol st) <= String.length text /\
  lastSlice (untilSymbol text symbol st) = lastSlice st /\
  io (untilSymbol text symbol st) = io st /\
  (forall q, pos st <= q -> q < pos (untilSymbol text symbol st) ->
             startsWith text symbol q = false) /\
  (startsWith text symbol (pos (untilSymbol text symbol st)) = true \/
   (pos (untilSymbol text symbol st) = String.length text /\
    forall q, pos st <= q -> startsWith text symbol q = false)).
Proof.
  intros Hpos. unfold untilSymbol.
  destruct (indexOf text symbol (pos st)) as [i |] eqn:Hidx; cbn [pos lastSlice io set_pos].
  - pose proof (indexOf_bounds _ _ _ _ Hidx) as [_ Hhi].
    apply indexOf_some_spec in Hidx as (Hle & Hfound & Hbefore); [| exact Hpos].
    repeat split; try assumption; try lia. now left.
  - pose proof (indexOf_none_spec _ _ _ Hidx) as Hnone.
    repeat split; try assumption; try lia.
    + intros q Hq _. now apply Hnone.
    + right. split; [reflexivity | exact Hnone].
Qed.

Lemma untilSymbol_finds_first_occurrence_witness :
  2 <= pos (untilSymbol "a*b**c" "**" (set_pos initial 2)) /\
  pos (untilSymbol "a*b**c" "**" (set_pos initial 2)) <= String.length "a*b**c" /\
  lastSlice (untilSymbol "a*b**c" "**" (set_pos initial 2)) = 0 /\
  io (untilSymbol "a*b**c" "**" (set_pos initial 2)) = [] /\
  (forall q, 2 <= q -> q < pos (untilSymbol "a*b**c" "**" (set_pos initial 2)) ->
             startsWith "a*b**c" "**" q = false) /\
  (startsWith "a*b**c" "**" (pos (untilSymbol "a*b**c" "**" (set_pos initial 2))) = true \/
   (pos (untilSymbol "a*b**c" "**" (set_pos initial 2)) = String.length "a*b**c" /\
    forall q, 2 <= q -> startsWith "a*b**c" "**" q = false)).
Proof.
  apply (untilSymbol_finds_first_occurrence "a*b**c" "**" (set_pos initial 2)).
  simpl. lia.
Defined.

(* ================================================================= *)
(** ** The [RegExp] branch of [format] *)

(** X19. In [format] a transformer whose opening delimiter is a [RegExp]
    is matched against the whole text, not from the cursor, and never
    ends the turn.  When it is alone in the registry and the engine
    finds [raw] with a non-empty first group [g] that [validate]
    accepts, every turn, wherever the cursor stands, appends
    [transformer(g)] as it is (also when the transformer is recursive),
    steps over as many characters as [raw] has, and flushes the one
    character after them. *)
Theorem format_RegExp_turn regexp_exec self (m : Transformer) (text raw g : string)
        (gs : list (option string)) (inner : nat) (st : ScanState) :
  is_RegExp (open m) = true ->
  regexp_exec (combined_source m) text = Ret (Some (raw, Some g :: gs)) ->
  nonempty g = true -> validate m g = true ->
  iteration regexp_exec self [m] text inner st
  = Ret {| pos := pos st + String.length raw + 1;
           lastSlice := pos st + String.length raw + 1;
           io := io st ++ [transformer m g;
                           slice text (pos st + String.length raw)
                                 (pos st + String.length raw + 1)] |}.
Proof.
  intros Hopen Hexec Hg Hval.
  unfold iteration, is_match. cbn [filter].
  destruct (open m) as [o | source |] eqn:Ho; try discriminate.
  cbn [List.length Nat.ltb Nat.leb some_matches].
  unfold attempt. rewrite Ho. cbn [is_RegExp orb]. unfold regex_attempt.
  unfold combined_source in Hexec. rewrite Ho in Hexec. rewrite Ho, Hexec.
  cbn [bind]. rewrite Hg, Hval. cbn [andb bind fst snd].
  unfold slice_to_io, set_pos. cbn [pos lastSlice io].
  now rewrite <- app_assoc.
Qed.

Lemma format_RegExp_turn_witness :
  iteration RegExp.exec (fun s => Ret s) [italic_pattern] "*a* b" 0
            {| pos := 4; lastSlice := 4; io := ["<i>a</i>"; " "] |}
  = Ret {| pos := 4 + String.length "*a*" + 1;
           lastSlice := 4 + String.length "*a*" + 1;
           io := ["<i>a</i>"; " "] ++
                 [transformer italic_pattern "a";
                  slice "*a* b" (4 + String.length "*a*") (4 + String.length "*a*" + 1)] |}.
Proof.
  apply (format_RegExp_turn RegExp.exec (fun s => Ret s) italic_pattern "*a* b" "*a*" "a" []
           0 {| pos := 4; lastSlice := 4; io := ["<i>a</i>"; " "] |}); reflexivity.
Defined.

(* ================================================================= *)
(** ** Padding in [formatRegex] *)

Section RegexPadding.

Variable regexp_exec : string -> string -> outcome ExecResult.
Variable text : string.

Lemma padded_callback_discards (t : Transformer) (st : RegexState) :
  padding t = true ->
  engine_answers regexp_exec t -> close_always_found regexp_exec t ->
  committed text st ->
  exists st',
    regex_callback regexp_exec text t st = Ret (false, st') /\
    committed text st' /\ rx_pos st <= rx_pos st'.
Proof.
  intros Hpad (o & c & Ho & Hc & Hmatch & _) (c' & Hc' & Hfound) [Hjoin Hle].
  rewrite Hc in Hc'. injection Hc' as <-.
  unfold regex_callback. rewrite Ho, Hc. cbn [bind].
  destruct (Hmatch (drop (rx_pos st) text)) as [r ->]. cbn [bind].
  assert (exists st', Ret (false, st) = Ret (false, st') /\
                      committed text st' /\ rx_pos st <= rx_pos st') as Hstay.
  { exists st. repeat split; (assumption || lia). }
  destruct r as [[raw [| [g |] gs]] |]; try exact Hstay.
  destruct (nonempty raw && nonempty g && validate t g)%bool; [| exact Hstay].
  rewrite Hpad. cbn [bind].
  destruct (Hfound (charAtOrUndefined text (rx_pos st + String.length raw))) as [found ->].
  cbn [bind]. eexists. split; [reflexivity |]. unfold committed. cbn [rx_io rx_lastPos rx_pos].
  repeat split; try lia. rewrite join_snoc, Hjoin. now apply take_slice.
Qed.

Lemma padded_some_discards :
  forall ts st,
    Forall (fun t => padding t = true /\ engine_answers regexp_exec t /\
                     close_always_found regexp_exec t) ts ->
    committed text st ->
    exists st',
      some_transformers regexp_exec text ts st = Ret (false, st') /\
      committed text st' /\ rx_pos st <= rx_pos st'.
Proof.
  induction ts as [| t ts IH]; intros st Hall Hst; simpl.
  - exists st. repeat split; (apply Hst || lia).
  - inversion Hall as [| ? ? (Hpad & Hans & Hclose) Hts]; subst.
    destruct (padded_callback_discards t st Hpad Hans Hclose Hst) as (st1 & -> & Hst1 & Hle).
    cbn [bind fst snd]. destruct (IH st1 Hts Hst1) as (st2 & -> & Hst2 & Hle2).
    exists st2. repeat split; (apply Hst2 || lia).
Qed.

Lemma padded_scan (transformers : list Transformer) :
  Forall (fun t => padding t = true /\ engine_answers regexp_exec t /\
                   close_always_found regexp_exec t) transformers ->
  forall fuel st,
    committed text st ->
    String.length text - rx_pos st <= fuel ->
    exists st',
      regex_scan regexp_exec text fuel transformers st = Ret st' /\
      committed text st' /\ String.length text <= rx_pos st'.
Proof.
  intros Hall. induction fuel as [| fuel IH]; intros st Hst Hfuel; rewrite regex_scan_eq;
    destruct (Nat.ltb_spec (rx_pos st) (String.length text)) as [Hlt | Hge]; try lia;
    try (exists st; repeat split; (apply Hst || lia)).
  unfold regex_iteration.
  destruct (padded_some_discards transformers st Hall Hst) as (st1 & -> & [Hj Hl] & Hle).
  cbn [bind fst snd]. apply IH; [split; cbn [rx_io rx_lastPos rx_pos]; (assumption || lia) |].
  cbn [rx_pos]. lia.
Qed.

End RegexPadding.

(** X20. In [formatRegex] a transformer with padding never fires when
    its normalized closing pattern is found in every input, as is a
    pattern that matches the empty string: every match is dropped by the
    padding test.  With a registry of such transformers the call
    returns the text unchanged, for any fuel from its length on. *)
Theorem formatRegex_padding_drops_every_match regexp_exec
        (transformers : list Transformer) (text : string) (fuel : nat) :
  Forall (fun t => padding t = true /\ engine_answers regexp_exec t /\
                   close_always_found regexp_exec t) transformers ->
  String.length text <= fuel ->
  formatRegex regexp_exec fuel transformers text = Ret text.
Proof.
  intros Hall Hfuel. unfold formatRegex.
  destruct (padded_scan regexp_exec text transformers Hall fuel
              {| rx_pos := 0; rx_lastPos := 0; rx_io := [] |})
    as (st' & -> & [Hjoin Hle] & Hend); [split; simpl; (reflexivity || lia) | simpl; lia |].
  cbn [bind]. rewrite join_snoc, Hjoin, take_slice by exact Hle.
  now rewrite take_all by exact Hend.
Qed.

Lemma star_greedy_found {R} (a : RegExp.Atom) (k : nat -> string -> option R) :
  (forall i s, exists r, k i s = Some r) ->
  forall s i, exists r, RegExp.star_greedy a i s k = Some r.
Proof.
  intros Hk. induction s as [| c s IH]; intros i; simpl; [apply Hk |].
  destruct (RegExp.atom_matches a c); [| apply Hk].
  destruct (IH (S i)) as [r ->]. now exists r.
Qed.

(** The normalized pattern of [**] is found in every input. *)
Lemma starred_star_always_found (input : string) :
  exists found, RegExp.exec "\**" input = Ret (Some found).
Proof.
  unfold RegExp.exec.
  change (RegExp.parse "\**")
    with (RegExp.POk (RegExp.NSeq (RegExp.NStar (RegExp.AChar "*") true) RegExp.NEmpty, 0)).
  cbv iota beta.
  assert (exists r,
             RegExp.run input
               (RegExp.NSeq (RegExp.NStar (RegExp.AChar "*") true) RegExp.NEmpty)
               0 input (repeat None 0)
               (fun e _ caps => Some (e, caps)) = Some r) as [[e caps] Hrun].
  { cbn [RegExp.run RegExp.star]. apply star_greedy_found. intros i s. now eexists. }
  destruct input as [| ch rest]; cbn [RegExp.search]; rewrite Hrun; now eexists.
Qed.

Lemma formatRegex_padding_drops_every_match_witness :
  formatRegex RegExp.exec 8 [bold] "**bold**" = Ret "**bold**".
Proof.
  apply formatRegex_padding_drops_every_match; [| simpl; lia].
  repeat constructor.
  - eexists _, _. do 2 (split; [reflexivity |]).
    split; eapply exec_answers; vm_compute; reflexivity.
  - eexists. split; [reflexivity |]. apply starred_star_always_found.
Defined.

(* ================================================================= *)
(** ** The shape of the output of [formatRegex] *)

Section RegexSegments.

Variable regexp_exec : string -> string -> outcome ExecResult.
Variable transformers : list Transformer.
Variable text : string.

Lemma regex_callback_segments (t : Transformer) (st st' : RegexState) (b : bool) :
  In t transformers ->
  regex_callback regexp_exec text t st = Ret (b, st') ->
  exists pieces,
    rx_io st' = (rx_io st ++ pieces)%list /\
    Forall (regex_fragment_of regexp_exec transformers text) pieces.
Proof.
  intros Hin. unfold regex_callback.
  destruct (normalizePattern (open t)) as [o | | |] eqn:Ho; cbn [bind]; try discriminate.
  destruct (normalizePattern (close t)) as [c | | |] eqn:Hc; cbn [bind]; try discriminate.
  destruct (regexp_exec _ (drop (rx_pos st) text)) as [r | | |] eqn:Hexec; cbn [bind];
    try discriminate.
  assert (Ret (false, st) = Ret (b, st') ->
          exists pieces,
            rx_io st' = (rx_io st ++ pieces)%list /\
            Forall (regex_fragment_of regexp_exec transformers text) pieces) as Hstay.
  { intros [= <- <-]. exists []. split; [now rewrite app_nil_r | constructor]. }
  destruct r as [[raw [| [g |] gs]] |]; try exact Hstay.
  destruct (nonempty raw && nonempty g)%bool; cbn [andb]; [| exact Hstay].
  destruct (validate t g) eqn:Hval; [| exact Hstay].
  assert (regex_fragment_of regexp_exec transformers text
            (slice text (rx_lastPos st) (rx_pos st))) as Hslice by (left; now eexists _, _).
  assert (regex_fragment_of regexp_exec transformers text (transformer t g)) as Hrewrite.
  { right. exists t, o, c, (rx_pos st), raw, g, gs. now repeat split. }
  destruct (padding t).
  - cbn [bind]. destruct (regexp_exec c _) as [next | | |]; cbn [bind]; try discriminate.
    destruct next; intros [= <- <-]; cbn [rx_io].
    + eexists. split; [reflexivity |]. apply Forall_cons; [exact Hslice | constructor].
    + eexists. rewrite <- app_assoc. split; [reflexivity |].
      apply Forall_cons; [exact Hslice |]. apply Forall_cons; [exact Hrewrite | constructor].
  - intros [= <- <-]. cbn [rx_io].
    eexists. rewrite <- app_assoc. split; [reflexivity |].
    apply Forall_cons; [exact Hslice |]. apply Forall_cons; [exact Hrewrite | constructor].
Qed.

Lemma some_transformers_segments :
  forall ts st st' b,
    (forall t, In t ts -> In t transformers) ->
    some_transformers regexp_exec text ts st = Ret (b, st') ->
    exists pieces,
      rx_io st' = (rx_io st ++ pieces)%list /\
      Forall (regex_fragment_of regexp_exec transformers text) pieces.
Proof.
  induction ts as [| t ts IH]; intros st st' b Hsub; simpl.
  - intros [= _ <-]. exists []. split; [now rewrite app_nil_r | constructor].
  - destruct (regex_callback regexp_exec text t st) as [[b1 st1] | | |] eqn:Hcb;
      cbn [bind fst snd]; try discriminate.
    apply regex_callback_segments in Hcb as (p1 & Hio1 & Hf1); [| apply Hsub; now left].
    destruct b1.
    + intros [= _ <-]. now exists p1.
    + intros Hrest. apply IH in Hrest as (p2 & -> & Hf2);
        [| intros t' Hin; apply Hsub; now right].
      exists (p1 ++ p2)%list. rewrite Hio1, app_assoc. split; [reflexivity |].
      now apply Forall_app.
Qed.

Lemma regex_scan_segments :
  forall fuel st st',
    regex_scan regexp_exec text fuel transformers st = Ret st' ->
    exists pieces,
      rx_io st' = (rx_io st ++ pieces)%list /\
      Forall (regex_fragment_of regexp_exec transformers text) pieces.
Proof.
  induction fuel as [| fuel IH]; intros st st'; rewrite regex_scan_eq;
    destruct (Nat.ltb (rx_pos st) _); try discriminate;
    try (intros [= <-]; exists []; split; [now rewrite app_nil_r | constructor]).
  unfold regex_iteration.
  destruct (some_transformers regexp_exec text transformers st) as [[b st1] | | |] eqn:Hs;
    cbn [bind fst snd]; try discriminate.
  apply some_transformers_segments in Hs as (p1 & Hio1 & Hf1); [| auto].
  intros Hrest.
  assert (exists p2, rx_io st' = (rx_io st1 ++ p2)%list /\
                     Forall (regex_fragment_of regexp_exec transformers text) p2)
    as (p2 & -> & Hf2).
  { destruct b; apply IH in Hrest as (p2 & Hio2 & Hf2); exists p2; split;
      (assumption || exact Hio2). }
  exists (p1 ++ p2)%list. rewrite Hio1, app_assoc. split; [reflexivity |].
  now apply Forall_app.
Qed.

End RegexSegments.

(** X21. The output of [formatRegex] is a concatenation of fragments,
    each of which is a contiguous slice of the input or the rewrite, by
    a registered transformer, of the first group of a match that the
    engine found somewhere in the text and that [validate] accepted. *)
Theorem formatRegex_output_is_segmented regexp_exec
        (transformers : list Transformer) (text out : string) (fuel : nat) :
  formatRegex regexp_exec fuel transformers text = Ret out ->
  exists pieces,
    out = join pieces /\
    Forall (regex_fragment_of regexp_exec transformers text) pieces.
Proof.
  unfold formatRegex.
  destruct (regex_scan _ _ _ _ _) as [st' | | |] eqn:Hscan; cbn [bind]; try discriminate.
  intros [= <-].
  apply regex_scan_segments in Hscan as (pieces & Hio & Hfrag). cbn [rx_io app] in Hio.
  exists (pieces ++ [slice text (rx_lastPos st') (rx_pos st')])%list.
  rewrite Hio. split; [reflexivity |].
  apply Forall_app. split; [exact Hfrag |].
  constructor; [left; now eexists _, _ | constructor].
Qed.

Lemma formatRegex_output_is_segmented_witness :
  exists pieces,
    "hello <i>world</i>!" = join pieces /\
    Forall (regex_fragment_of RegExp.exec [italic] "hello *world*!") pieces.
Proof.
  apply (formatRegex_output_is_segmented RegExp.exec [italic] "hello *world*!"
           "hello <i>world</i>!" 14). reflexivity.
Defined.
